(** * IGDownloader: the incremental scan, range and archive engine

    A shallow embedding of the scan / duplicate-detection / range /
    archive code of [instagram_monitor.py], and the properties of it
    that the specification states.

    Conventions of the embedding.
    - Python [str] values are [string]s of ASCII characters: the
      listing lines are media file names made of digits, letters,
      underscores and a dotted extension.  [str.upper], [str.lower],
      [str.strip] and [str.isdigit] are given on the ASCII range, where
      they are Python's; on other characters Python also folds
      letters, strips blanks and accepts digits that [PyStr] leaves
      alone.  The properties whose subject is the text of a line are
      stated for ASCII lines ([Charset.isascii]).
    - Python [int] values are [Z].
    - A Python [set] of strings is a [gset string]; the archive
      dictionary is a [gmap] from account names to a record of two
      lists.
    - The external listing process is an input: what [subprocess.run]
      returned, or the exception it raised. *)

From Stdlib Require Import ZArith List Ascii String Bool Lia.
From stdpp Require Import base option list sorting gmap sets strings.

Import ListNotations.
Local Open Scope string_scope.
Local Open Scope Z_scope.

(** ** Python string operations *)

Module PyStr.

Definition code (c : ascii) : nat := nat_of_ascii c.

Definition is_lower_char (c : ascii) : bool :=
  (Nat.leb 97 (code c)) && (Nat.leb (code c) 122).

Definition is_upper_char (c : ascii) : bool :=
  (Nat.leb 65 (code c)) && (Nat.leb (code c) 90).

Definition is_digit_char (c : ascii) : bool :=
  (Nat.leb 48 (code c)) && (Nat.leb (code c) 57).

(** [str.isspace] on ASCII: TAB, LF, VT, FF, CR, FS, GS, RS, US, SPACE. *)
Definition is_space_char (c : ascii) : bool :=
  ((Nat.leb 9 (code c)) && (Nat.leb (code c) 13))
  || ((Nat.leb 28 (code c)) && (Nat.leb (code c) 32)).

Definition upper_char (c : ascii) : ascii :=
  if is_lower_char c then ascii_of_nat (code c - 32) else c.

Definition lower_char (c : ascii) : ascii :=
  if is_upper_char c then ascii_of_nat (code c + 32) else c.

Fixpoint map_chars (f : ascii -> ascii) (s : string) : string :=
  match s with
  | EmptyString => EmptyString
  | String c r => String (f c) (map_chars f r)
  end.

(** [s.upper()] and [s.lower()] on ASCII text: the letters a-z and
    A-Z are folded, every other character is kept. *)
Definition upper (s : string) : string := map_chars upper_char s.
Definition lower (s : string) : string := map_chars lower_char s.

(** [s.lstrip()] *)
Fixpoint lstrip (s : string) : string :=
  match s with
  | EmptyString => EmptyString
  | String c r => if is_space_char c then lstrip r else s
  end.

(** [s.rstrip()] *)
Fixpoint rstrip (s : string) : string :=
  match s with
  | EmptyString => EmptyString
  | String c r =>
      match rstrip r with
      | EmptyString => if is_space_char c then EmptyString else String c EmptyString
      | r' => String c r'
      end
  end.

(** [s.strip()] on ASCII text: the blanks are those of
    [is_space_char]. *)
Definition strip (s : string) : string := rstrip (lstrip s).

(** [s.startswith(p)] *)
Fixpoint startswith (p s : string) : bool :=
  match p, s with
  | EmptyString, _ => true
  | String a p', String b s' => if Ascii.eqb a b then startswith p' s' else false
  | String _ _, EmptyString => false
  end.

(** [s.endswith(p)] *)
Fixpoint endswith (p s : string) : bool :=
  match s with
  | EmptyString => String.eqb p EmptyString
  | String _ s' => String.eqb p s || endswith p s'
  end.

(** [p in s] *)
Fixpoint contains (p s : string) : bool :=
  startswith p s ||
  match s with
  | EmptyString => false
  | String _ s' => contains p s'
  end.

(** [s[n:]] *)
Fixpoint drop_chars (n : nat) (s : string) : string :=
  match n, s with
  | O, _ => s
  | S _, EmptyString => EmptyString
  | S n', String _ s' => drop_chars n' s'
  end.

(** [s.rsplit(sep, 1)] when [sep] occurs in [s]: the text before the
    last [sep] and the text after it; [None] when [sep] does not
    occur (Python then returns the one-element list [[s]]). *)
Fixpoint rsplit1 (sep : ascii) (s : string) : option (string * string) :=
  match s with
  | EmptyString => None
  | String c r =>
      match rsplit1 sep r with
      | Some (h, t) => Some (String c h, t)
      | None => if Ascii.eqb c sep then Some (EmptyString, r) else None
      end
  end.

(** [s.rsplit(sep, 1)[0]] *)
Definition rsplit1_head (sep : ascii) (s : string) : string :=
  match rsplit1 sep s with
  | Some (h, _) => h
  | None => s
  end.

(** [s.split(sep)[0]] *)
Fixpoint split_head (sep : ascii) (s : string) : string :=
  match s with
  | EmptyString => EmptyString
  | String c r => if Ascii.eqb c sep then EmptyString else String c (split_head sep r)
  end.

(** [s.replace(c, '')] for a one-character [c] *)
Fixpoint remove_char (x : ascii) (s : string) : string :=
  match s with
  | EmptyString => EmptyString
  | String c r => if Ascii.eqb c x then remove_char x r else String c (remove_char x r)
  end.

Fixpoint all_chars (f : ascii -> bool) (s : string) : bool :=
  match s with
  | EmptyString => true
  | String c r => f c && all_chars f r
  end.

(** [s.isdigit()] on ASCII text, where the digits are 0 to 9: false
    on the empty string *)
Definition isdigit (s : string) : bool :=
  match s with
  | EmptyString => false
  | _ => all_chars is_digit_char s
  end.

(** [s.split(sep)] for a one-character [sep]: never the empty list *)
Fixpoint split_on (sep : ascii) (s : string) : list string :=
  match s with
  | EmptyString => [EmptyString]
  | String c r =>
      if Ascii.eqb c sep then EmptyString :: split_on sep r
      else match split_on sep r with
           | [] => [String c EmptyString]
           | h :: t => String c h :: t
           end
  end.

(** Python truthiness of a [str] *)
Definition nonempty (s : string) : bool :=
  match s with EmptyString => false | _ => true end.

End PyStr.

(** ** Feed lines

    The part of the listing loop that the post scan and the story scan
    share: each line of [result.stdout.split('\n')] is stripped,
    upper-cased, relieved of a leading ["# "], and kept when it is not
    empty and one of the media extensions occurs in its lower-cased
    text. *)

Module Feed.
Import PyStr.

Definition newline : ascii := ascii_of_nat 10.
Definition dot : ascii := ascii_of_nat 46.
Definition underscore : ascii := ascii_of_nat 95.

(** [['.jpg', '.mp4', '.webp']] *)
Definition media_exts : list string := [".jpg"; ".mp4"; ".webp"].

(** [result.stdout.split('\n')] *)
Definition stdout_lines (stdout : string) : list string := split_on newline stdout.

(** [line = line.strip().upper()], then
    [if line.startswith('# '): line = line[2:]] *)
Definition normalize (raw : string) : string :=
  let line := upper (strip raw) in
  if startswith "# " line then drop_chars 2 line else line.

(** [line and any(ext in line.lower() for ext in [...])] *)
Definition is_media_line (line : string) : bool :=
  nonempty line && existsb (fun ext => contains ext (lower line)) media_exts.

(** The test applied to a raw line of the listing. *)
Definition is_candidate (raw : string) : bool := is_media_line (normalize raw).

Inductive media_kind := Video | Image.

(** [ext = line.rsplit('.', 1)[1].lower() if '.' in line else ''] *)
Definition extension (line : string) : string :=
  match rsplit1 dot line with
  | Some (_, e) => lower e
  | None => ""
  end.

(** ['视频' if ext == 'mp4' else '图片'] *)
Definition media_type_of (line : string) : media_kind :=
  if String.eqb (extension line) "mp4" then Video else Image.

(** [line.rsplit('.', 1)[0]]; on an archived id the code writes
    [full_id.rsplit('.', 1)[0] if '.' in full_id else full_id], which
    is the same text. *)
Definition without_ext (line : string) : string := rsplit1_head dot line.

(** [id_without_ext.split('_')[0]] *)
Definition post_id_of (line : string) : string := split_head underscore (without_ext line).

End Feed.

(** ** The post scan: [run_gallery_dl_scan_posts] *)

Module Posts.
Import PyStr Feed.

(** The dictionary appended to [media_list]; its ["type"] entry is the
    constant ["post"]. *)
Record post_media := PostMedia {
  pm_id : string;          (* "id": the line without its extension *)
  pm_post_id : string;     (* "post_id" *)
  pm_post_index : Z;       (* "post_index" *)
  pm_media_index : Z;      (* "media_index" *)
  pm_filename : string;    (* "filename": the whole normalized line *)
  pm_media_type : media_kind
}.

(** The local variables of the loop. *)
Record scan_state := ScanState {
  media_list : list post_media;
  duplicate_count : Z;
  stopped_early : bool;
  new_content_count : Z;
  last_post_id : option string;
  post_index : Z;
  media_index : Z
}.

Definition init_state : scan_state :=
  {| media_list := []; duplicate_count := 0; stopped_early := false;
     new_content_count := 0; last_post_id := None;
     post_index := 0; media_index := 0 |}.

(** The first loop of the function: the post ids of the archived
    file names. *)
Definition downloaded_post_ids_of (downloaded_ids : gset string) : gset string :=
  set_map post_id_of downloaded_ids.

(** Truthiness of [max_range] ([None] and [0] are false). *)
Definition range_set (max_range : option Z) : bool :=
  match max_range with
  | Some r => negb (r =? 0)
  | None => false
  end.

(** [max_range and media_index >= max_range] *)
Definition range_reached (max_range : option Z) (idx : Z) : bool :=
  match max_range with
  | Some r => negb (r =? 0) && (r <=? idx)
  | None => false
  end.

(** [post_id != last_post_id] *)
Definition differs (post_id : string) (last : option string) : bool :=
  match last with
  | Some p => negb (String.eqb post_id p)
  | None => true
  end.

Section Loop.
Variable downloaded_post_ids : gset string.
Variable max_duplicates : Z.
Variable max_range : option Z.

(** The test of line 343. *)
Definition is_duplicate (line : string) : bool :=
  bool_decide (post_id_of line ∈ downloaded_post_ids).

(** The body of the [if line and any(...)] block for a normalized
    line; the boolean is [true] when the body ends in [break]. *)
Definition scan_candidate (line : string) (st : scan_state) : scan_state * bool :=
  let filename := line in
  let full_id := without_ext line in
  let post_id := post_id_of line in
  let media_type := media_type_of line in
  let is_new_post := differs post_id (last_post_id st) in
  let idx := media_index st + 1 in
  let pidx := if is_new_post then post_index st + 1 else post_index st in
  if is_duplicate line then
    if is_new_post then
      let dups := duplicate_count st + 1 in
      if max_duplicates <=? dups then
        ({| media_list := media_list st; duplicate_count := dups;
            stopped_early := true; new_content_count := new_content_count st;
            last_post_id := Some post_id; post_index := pidx; media_index := idx |},
         true)
      else
        ({| media_list := media_list st; duplicate_count := dups;
            stopped_early := stopped_early st; new_content_count := new_content_count st;
            last_post_id := Some post_id; post_index := pidx; media_index := idx |},
         false)
    else
      ({| media_list := media_list st; duplicate_count := duplicate_count st;
          stopped_early := stopped_early st; new_content_count := new_content_count st;
          last_post_id := Some post_id; post_index := pidx; media_index := idx |},
       false)
  else
    let item := {| pm_id := full_id; pm_post_id := post_id; pm_post_index := pidx;
                   pm_media_index := idx; pm_filename := filename;
                   pm_media_type := media_type |} in
    let stop := range_reached max_range idx in
    ({| media_list := media_list st ++ [item]; duplicate_count := duplicate_count st;
        stopped_early := if stop then true else stopped_early st;
        new_content_count := new_content_count st + 1;
        last_post_id := Some post_id; post_index := pidx; media_index := idx |},
     stop).

(** The [for line in result.stdout.split('\n')] loop. *)
Fixpoint scan_lines (lines : list string) (st : scan_state) : scan_state :=
  match lines with
  | [] => st
  | raw :: rest =>
      let line := normalize raw in
      if is_media_line line then
        let '(st', stop) := scan_candidate line st in
        if stop then st' else scan_lines rest st'
      else scan_lines rest st
  end.

(** The states the loop goes through, one after each candidate it
    handles (the candidate that ends the loop included). *)
Fixpoint scan_trace (lines : list string) (st : scan_state) : list scan_state :=
  match lines with
  | [] => []
  | raw :: rest =>
      let line := normalize raw in
      if is_media_line line then
        let '(st', stop) := scan_candidate line st in
        if stop then [st'] else st' :: scan_trace rest st'
      else scan_trace rest st
  end.

End Loop.

(** What [subprocess.run] gave: a completed process, or an exception
    ([TimeoutExpired] or any other). *)
Inductive listing :=
| Completed (stdout : string) (returncode : Z)
| Raised.

(** The final state of the loop for a completed listing. *)
Definition scan_posts (downloaded_ids : gset string) (max_duplicates : Z)
    (max_range : option Z) (stdout : string) : scan_state :=
  scan_lines (downloaded_post_ids_of downloaded_ids) max_duplicates max_range
    (stdout_lines stdout) init_state.

(** [run_gallery_dl_scan_posts]: [(media_list, success, stopped_early)]. *)
Definition run_gallery_dl_scan_posts (downloaded_ids : gset string) (max_duplicates : Z)
    (max_range : option Z) (result : listing) : list post_media * bool * bool :=
  match result with
  | Completed stdout returncode =>
      let st := scan_posts downloaded_ids max_duplicates max_range stdout in
      let success := negb (Nat.eqb (length (media_list st)) 0) || (returncode =? 0) in
      (media_list st, success, stopped_early st)
  | Raised => ([], false, false)
  end.

(** [config.DEFAULT_CONFIG["MAX_CONSECUTIVE_DUPLICATES"]] *)
Definition default_max_duplicates : Z := 3.

End Posts.

(** ** The story scan: [run_gallery_dl_scan_stories] *)

Module Stories.
Import PyStr Feed.

(** The dictionary appended to [media_list]; its ["type"] entry is the
    constant ["story"]. *)
Record story_media := StoryMedia {
  sm_id : string;          (* "id": the line without its extension *)
  sm_filename : string;    (* "filename": the whole normalized line *)
  sm_media_type : media_kind
}.

Record scan_state := ScanState {
  media_list : list story_media;
  total_scanned : Z
}.

Definition init_state : scan_state := {| media_list := []; total_scanned := 0 |}.

(** [media_id.replace('_', '').isdigit()] *)
Definition numeric_id (line : string) : bool :=
  isdigit (remove_char underscore (without_ext line)).

Section Loop.
Variable downloaded_ids : gset string.

(** The body of the [if line and any(...)] block for a normalized line. *)
Definition scan_candidate (line : string) (st : scan_state) : scan_state :=
  let filename := line in
  let media_id := without_ext line in
  let media_type := media_type_of line in
  if numeric_id line then
    if bool_decide (filename ∈ downloaded_ids) then
      {| media_list := media_list st; total_scanned := total_scanned st + 1 |}
    else
      {| media_list := media_list st ++
                       [{| sm_id := media_id; sm_filename := filename;
                           sm_media_type := media_type |}];
         total_scanned := total_scanned st + 1 |}
  else st.

(** The [for line in result.stdout.split('\n')] loop; it has no [break]. *)
Fixpoint scan_lines (lines : list string) (st : scan_state) : scan_state :=
  match lines with
  | [] => st
  | raw :: rest =>
      let line := normalize raw in
      if is_media_line line then scan_lines rest (scan_candidate line st)
      else scan_lines rest st
  end.

End Loop.

Definition scan_stories (downloaded_ids : gset string) (stdout : string) : scan_state :=
  scan_lines downloaded_ids (stdout_lines stdout) init_state.

(** [run_gallery_dl_scan_stories]: [(media_list, success)]. *)
Definition run_gallery_dl_scan_stories (downloaded_ids : gset string)
    (result : Posts.listing) : list story_media * bool :=
  match result with
  | Posts.Completed stdout returncode =>
      (media_list (scan_stories downloaded_ids stdout), returncode =? 0)
  | Posts.Raised => ([], false)
  end.

End Stories.

(** ** The download range: [run_scan_and_download] and [download_content_v2] *)

Module Range.
Import Posts.

(** [min(m.get("media_index", 0) for m in new_posts)] on a list with
    first element [m]; every dictionary of the post scan has the key. *)
Definition min_media_index (m : post_media) (ms : list post_media) : Z :=
  fold_left Z.min (map pm_media_index ms) (pm_media_index m).

Definition max_media_index (m : post_media) (ms : list post_media) : Z :=
  fold_left Z.max (map pm_media_index ms) (pm_media_index m).

(** [posts_range]: the pair of the two, or [None] when [new_posts] is
    empty. *)
Definition posts_range (new_posts : list post_media) : option (Z * Z) :=
  match new_posts with
  | [] => None
  | m :: ms => Some (min_media_index m ms, max_media_index m ms)
  end.

(** The guard of the post download in [download_content_v2]:
    [posts_range and posts_range[0] > 0 and posts_range[1] >= posts_range[0]]. *)
Definition posts_download_runs (range : option (Z * Z)) : bool :=
  match range with
  | None => false
  | Some (s, e) => (0 <? s) && (s <=? e)
  end.

(** The argument of [--range]: [start] and [end] of the request. *)
Definition range_argument (range : option (Z * Z)) : option (Z * Z) :=
  if posts_download_runs range then range else None.

End Range.

(** ** The archive: [load_archive], [save_archive], [update_archive] *)

Module Archive.
Import Posts Stories.

(** The value of an account in the archive dictionary:
    [{"posts": [...], "stories": [...]}]. *)
Record account_record := AccountRecord {
  posts : list string;
  stories : list string
}.

(** The archive file as a reader finds it: absent; holding only white
    space; holding text that [json.loads] rejects (a document cut
    short is such a text: the closing brace of the top-level object
    is its last character); or holding the document of an archive. *)
Inductive archive_file :=
| NoFile
| Blank
| Malformed
| Document (archive : gmap string account_record).

(** [load_archive]: every failure yields the empty dictionary. *)
Definition load_archive (file : archive_file) : gmap string account_record :=
  match file with
  | NoFile => ∅
  | Blank => ∅
  | Malformed => ∅
  | Document archive => archive
  end.

(** File operations change the file and return a value or raise. *)
Definition io (A : Type) : Type := archive_file -> archive_file * option A.

#[global] Instance io_ret : MRet io := fun A x file => (file, Some x).

(** An exception ends the sequence. *)
#[global] Instance io_bind : MBind io := fun A B k m file =>
  match m file with
  | (file', Some x) => k x file'
  | (file', None) => (file', None)
  end.

(** Whether a run of an operation raised. *)
Definition raised {A : Type} (r : archive_file * option A) : bool :=
  match r.2 with
  | Some _ => false
  | None => true
  end.

(** How [json.dump] ends: it returns, the whole document written; or it
    raises, with nothing or with the beginning of the text written. *)
Inductive dump_outcome :=
| DumpReturns
| DumpRaises (wrote_some : bool).

(** What the file system does to one call of [save_archive]. *)
Record faults := Faults {
  mkdir_fails : bool;
  open_fails : bool;
  dump : dump_outcome
}.

Definition no_faults : faults :=
  {| mkdir_fails := false; open_fails := false; dump := DumpReturns |}.

(** [archive_path.parent.mkdir(parents=True, exist_ok=True)] *)
Definition mkdir_parents (env : faults) : io unit :=
  fun file => (file, if mkdir_fails env then None else Some tt).

(** [open(archive_path, 'w', encoding='utf-8')]: a successful open
    leaves the file empty. *)
Definition open_w (env : faults) : io unit :=
  fun file => if open_fails env then (file, None) else (Blank, Some tt).

(** [json.dump(archive, f, indent=2, ensure_ascii=False)], and the
    closing of [f] at the end of the [with] block. *)
Definition json_dump (env : faults) (archive : gmap string account_record) : io unit :=
  fun file =>
    match dump env with
    | DumpReturns => (Document archive, Some tt)
    | DumpRaises false => (file, None)
    | DumpRaises true => (Malformed, None)
    end.

(** [save_archive] *)
Definition save_archive (env : faults) (archive : gmap string account_record) : io unit :=
  mkdir_parents env ;; open_w env ;; json_dump env archive.

(** One key of [dict.fromkeys]: a key already present keeps its place. *)
Definition add_key (keys : list string) (k : string) : list string :=
  if bool_decide (k ∈ keys) then keys else keys ++ [k].

(** [list(dict.fromkeys(l))] *)
Definition dict_fromkeys (l : list string) : list string := fold_left add_key l [].

(** [archive[account]] after [if account not in archive: archive[account] = {...}] *)
Definition record_of (archive : gmap string account_record) (account : string) : account_record :=
  match archive !! account with
  | Some r => r
  | None => {| posts := []; stories := [] |}
  end.

(** The dictionary [update_archive] passes to [save_archive]. *)
Definition merge (account : string) (new_posts : list post_media)
    (new_stories : list story_media) (archive : gmap string account_record)
    : gmap string account_record :=
  let r := record_of archive account in
  let new_post_ids := map pm_filename new_posts in
  let new_story_ids := map sm_filename new_stories in
  <[account := {| posts := dict_fromkeys (posts r ++ new_post_ids);
                  stories := dict_fromkeys (stories r ++ new_story_ids) |}]> archive.

(** [update_archive]: load, merge, save. *)
Definition update_archive (env : faults) (account : string)
    (new_posts : list post_media) (new_stories : list story_media) : io unit :=
  fun file =>
    save_archive env (merge account new_posts new_stories (load_archive file)) file.

(** [set(archive.get(account, {}).get("posts", []))] in [check_account] *)
Definition downloaded_posts (archive : gmap string account_record) (account : string)
    : gset string :=
  list_to_set (posts (record_of archive account)).

(** [set(archive.get(account, {}).get("stories", []))] *)
Definition downloaded_stories (archive : gmap string account_record) (account : string)
    : gset string :=
  list_to_set (stories (record_of archive account)).

End Archive.

(** ** Reference notions the properties are stated with *)

Module Notions.
Import PyStr Feed Posts.

(** The candidates of a listing, in order: its normalized media lines. *)
Definition candidates (lines : list string) : list string :=
  filter (fun l => is_media_line l = true) (map normalize lines).

(** The number of candidates of [cands] that are duplicates and open a
    new group, [last] being the group of the candidate before. *)
Fixpoint new_group_duplicates (ids : gset string) (last : option string)
    (cands : list string) : Z :=
  match cands with
  | [] => 0
  | c :: r =>
      (if is_duplicate ids c && differs (post_id_of c) last then 1 else 0)
      + new_group_duplicates ids (Some (post_id_of c)) r
  end.

(** The post loop run on the candidates alone: what [scan_lines]
    does once the lines that are not candidates are left out. *)
Fixpoint scan_cands (ids : gset string) (max_duplicates : Z) (max_range : option Z)
    (cands : list string) (st : scan_state) : scan_state :=
  match cands with
  | [] => st
  | c :: r =>
      let '(st', stop) := scan_candidate ids max_duplicates max_range c st in
      if stop then st' else scan_cands ids max_duplicates max_range r st'
  end.

Fixpoint trace_cands (ids : gset string) (max_duplicates : Z) (max_range : option Z)
    (cands : list string) (st : scan_state) : list scan_state :=
  match cands with
  | [] => []
  | c :: r =>
      let '(st', stop) := scan_candidate ids max_duplicates max_range c st in
      if stop then [st'] else st' :: trace_cands ids max_duplicates max_range r st'
  end.

(** [line] ends with one of the media extensions, letter case aside. *)
Definition has_media_suffix (line : string) : bool :=
  existsb (fun ext => endswith ext (lower line)) media_exts.

(** The six one-file groups D1, D2, N1, D3, D4, D5 as listing lines. *)
Definition six_groups : list string :=
  ["1_1.jpg"; "2_1.jpg"; "3_1.jpg"; "4_1.jpg"; "5_1.jpg"; "6_1.jpg"].

End Notions.

(** ** ASCII text

    The string operations of [PyStr] agree with Python's on ASCII
    text.  Python's [str.upper], [str.strip] and [str.isdigit] also
    act on characters outside the ASCII range (other letters, blanks
    and digits), which [PyStr] leaves alone; the properties whose
    subject is the text of a line are therefore stated for ASCII
    lines, with the test below as a hypothesis. *)

Module Charset.
Import PyStr.

(** A character of the ASCII range. *)
Definition is_ascii_char (c : ascii) : bool := Nat.ltb (code c) 128.

(** [s.isascii()] *)
Definition isascii (s : string) : bool := all_chars is_ascii_char s.

(** A listing all of whose lines are ASCII. *)
Definition ascii_lines (lines : list string) : bool := forallb isascii lines.

End Charset.

(** ** Groups of a listing *)

Module Groups.
Import PyStr Feed Posts.

(** A group of a listing: a post id and the successive candidates of
    that post. *)
Definition group : Type := string * list string.

(** The candidates of a group are at least one, all of its post. *)
Definition is_group (g : group) : bool :=
  match g.2 with
  | [] => false
  | _ => forallb (fun c => String.eqb (post_id_of c) g.1) g.2
  end.

(** Two successive groups are of different posts. *)
Fixpoint successive (gs : list group) : bool :=
  match gs with
  | g :: rest =>
      match rest with
      | h :: _ => negb (String.eqb g.1 h.1) && successive rest
      | [] => true
      end
  | [] => true
  end.

(** The candidates of a sequence of groups, in listing order. *)
Definition files (gs : list group) : list string := concat (map snd gs).

(** The class of a group: duplicate ([true]) when its post is among
    the archived post ids, new ([false]) otherwise. *)
Definition archived (ids : gset string) (g : group) : bool :=
  bool_decide (g.1 ∈ ids).

(** [st'] is [st] after some candidates were handled without ending
    the loop: [dups] groups counted as duplicates, [groups] groups
    opened, [handled] candidates handled, the file names [emitted]
    emitted, the last candidate being of the post [p]. *)
Definition advanced (st st' : scan_state) (p : string) (dups groups : Z)
    (handled : nat) (emitted : list string) : Prop :=
  map pm_filename (media_list st') = (map pm_filename (media_list st) ++ emitted)%list
  /\ duplicate_count st' = duplicate_count st + dups
  /\ stopped_early st' = stopped_early st
  /\ new_content_count st' = new_content_count st + Z.of_nat (length emitted)
  /\ last_post_id st' = Some p
  /\ post_index st' = post_index st + groups
  /\ media_index st' = media_index st + Z.of_nat handled.

End Groups.

(** ** Further notions *)

Module MoreNotions.
Import PyStr Feed Posts.

(** The group positions of a state of the post loop are in step with
    its groups: [post_index] is at most [media_index] and at least 1
    once a candidate was seen; the emitted items carry group positions
    that never decrease, lie between 1 and the current one and do not
    exceed their media position; the items of the current group have
    the current post id; and items with one group position have one
    post id. *)
Definition groups_ok (st : scan_state) : Prop :=
  0 <= post_index st <= media_index st
  /\ (is_Some (last_post_id st) -> 1 <= post_index st)
  /\ Forall (fun m => 1 <= pm_post_index m <= post_index st
                      /\ pm_post_index m <= pm_media_index m) (media_list st)
  /\ StronglySorted (fun a b => pm_post_index a <= pm_post_index b) (media_list st)
  /\ (forall m, m ∈ media_list st -> pm_post_index m = post_index st ->
                last_post_id st = Some (pm_post_id m))
  /\ (forall m1 m2, m1 ∈ media_list st -> m2 ∈ media_list st ->
                    pm_post_index m1 = pm_post_index m2 -> pm_post_id m1 = pm_post_id m2).

End MoreNotions.

(** ** The download step: [download_content_v2] and its call *)

Module Download.
Import PyStr Feed Posts Range.

(** What a call may end with: a value, or an exception that no [try]
    block of the function catches. *)
Inductive py_error := UnboundLocalError.

Inductive outcome (A : Type) :=
| Returned (a : A)
| Raised_ (e : py_error).
Arguments Returned {A} a.
Arguments Raised_ {A} e.

(** [[line.strip() for line in result.stdout.split('\n') if line.strip()]] *)
Definition downloaded_files (stdout : string) : list string :=
  map strip (filter (fun l => nonempty (strip l) = true) (stdout_lines stdout)).

(** [f.lower().endswith('.json')] *)
Definition is_json (f : string) : bool := endswith ".json" (lower f).

(** [media_files] and [json_files] *)
Definition media_files (files : list string) : list string :=
  filter (fun f => is_json f = false) files.

Definition json_files (files : list string) : list string :=
  filter (fun f => is_json f = true) files.

(** The [try] block of the post download: the process result, and
    whether the handling of the metadata files or the pause that
    follow a zero return code raised. *)
Record posts_run := PostsRun {
  posts_result : listing;
  handling_raises : bool
}.

(** [posts_success] after the [try] block. *)
Definition posts_try (run : posts_run) : bool :=
  match posts_result run with
  | Completed _ returncode => (returncode =? 0) && negb (handling_raises run)
  | Raised => false
  end.

(** [stories_success] after the [try] block. *)
Definition stories_try (result : listing) : bool :=
  match result with
  | Completed _ returncode => returncode =? 0
  | Raised => false
  end.

(** [download_content_v2].  The local variable [data_dir] is assigned
    in the post branch only (lines 989 and 1026); the story branch
    reads it on line 1053, before its [try]. *)
Definition download_content_v2 (posts_range : option (Z * Z)) (new_stories_count : Z)
    (run : posts_run) (stories_result : listing) : outcome (bool * bool) :=
  let posts_branch := posts_download_runs posts_range in
  let posts_success := if posts_branch then posts_try run else true in
  let data_dir_bound := posts_branch in
  if 0 <? new_stories_count then
    if data_dir_bound then Returned (posts_success, stories_try stories_result)
    else Raised_ UnboundLocalError
  else Returned (posts_success, true).

(** The call in [run_scan_and_download]:
    [download_content_v2(account, posts_range, len(new_stories))] with
    the range computed from [new_posts]. *)
Definition download_new_content (new_posts : list post_media)
    (new_stories : list Stories.story_media) (run : posts_run)
    (stories_result : listing) : outcome (bool * bool) :=
  download_content_v2 (posts_range new_posts) (Z.of_nat (length new_stories))
    run stories_result.

End Download.

(** ** Clearing the archive: [clear_archive_menu] *)

Module Clearing.
Import Archive.

(** What the menu can do once the user has confirmed. *)
Inductive clear_op :=
| ClearAll                          (* [save_archive({})] *)
| ClearPosts (account : string)     (* [archive[account]["posts"] = []] *)
| ClearStories (account : string)   (* [archive[account]["stories"] = []] *)
| ClearAccount (account : string).  (* [del archive[account]] *)

(** The menu holds the dictionary it loaded when it was opened and the
    file. *)
Record session := Session {
  memory : gmap string account_record;
  file : archive_file
}.

(** [archive = load_archive()] at the top of the menu. *)
Definition open_menu (f : archive_file) : session :=
  {| memory := load_archive f; file := f |}.

(** The dictionary after the assignment or deletion; [None] is the
    [KeyError] of an account that is not a key. *)
Definition apply_op (op : clear_op) (archive : gmap string account_record)
    : option (gmap string account_record) :=
  match op with
  | ClearAll => Some archive
  | ClearPosts a =>
      r ← archive !! a; Some (<[a := {| posts := []; stories := stories r |}]> archive)
  | ClearStories a =>
      r ← archive !! a; Some (<[a := {| posts := posts r; stories := [] |}]> archive)
  | ClearAccount a =>
      _ ← archive !! a; Some (delete a archive)
  end.

(** The dictionary handed to [save_archive]: the empty one for
    [ClearAll], the dictionary of the menu otherwise. *)
Definition saved (op : clear_op) (archive : gmap string account_record)
    : gmap string account_record :=
  match op with
  | ClearAll => ∅
  | _ => archive
  end.

(** One confirmed operation: the session after it, and whether an
    exception arose (the menu catches it, except for [ClearAll]). *)
Definition clear (env : faults) (op : clear_op) (s : session) : session * bool :=
  match apply_op op (memory s) with
  | Some archive =>
      let r := save_archive env (saved op archive) (file s) in
      ({| memory := archive; file := r.1 |}, raised r)
  | None => (s, true)
  end.

End Clearing.

(** ** Settings: [config.py] and the threshold of the post scan *)

Module Config.
Import PyStr Feed Posts.

(** The values of the settings dictionary: numbers and texts. *)
Inductive config_value :=
| VInt (n : Z)
| VStr (s : string).

(** [DEFAULT_CONFIG] *)
Definition DEFAULT_CONFIG : gmap string config_value :=
  list_to_map
    [ ("DATA_DIR", VStr "");
      ("ACCOUNTS_FILE", VStr "accounts.json");
      ("DOWNLOAD_DIR", VStr "downloads");
      ("ARCHIVE_FILE", VStr "archive.json");
      ("COOKIES_FILE", VStr "instagram_cookies.txt");
      ("PROXY", VStr "socks5://127.0.0.1:7897");
      ("SLEEP_REQUEST", VStr "30-90");
      ("SLEEP_DOWNLOAD", VStr "20-60");
      ("MAX_CONSECUTIVE_DUPLICATES", VInt 3);
      ("MAX_SCAN_RANGE", VInt 50) ].

(** [settings.json] as [load_settings] finds it: absent, not loadable,
    or the document of a dictionary of numbers and texts, which is
    what [save_settings] writes.  A file holding another JSON value
    (a list, a number, [null]), which [load_settings] would return as
    it is, is outside this type. *)
Inductive settings_file :=
| NoSettings
| BadSettings
| Settings (settings : gmap string config_value).

(** [load_settings]: a file that is absent or that [json.load] rejects
    gives the empty dictionary. *)
Definition load_settings (f : settings_file) : gmap string config_value :=
  match f with
  | Settings settings => settings
  | _ => ∅
  end.

(** How the [try] block of [save_settings] ends: it returns; it raises
    in [open], the file untouched; or it raises in [json.dump], the
    file emptied by [open] and left cut short. *)
Inductive write_outcome := WriteReturns | WriteRaisesAtOpen | WriteRaisesInDump.

(** [save_settings]: the file, and the boolean it returns. *)
Definition save_settings (o : write_outcome) (settings : gmap string config_value)
    (f : settings_file) : settings_file * bool :=
  match o with
  | WriteReturns => (Settings settings, true)
  | WriteRaisesAtOpen => (f, false)
  | WriteRaisesInDump => (BadSettings, false)
  end.

(** [get_config(key, default)]: [settings.get(key, DEFAULT_CONFIG.get(key, default))];
    [None] is Python's [None]. *)
Definition get_config (key : string) (default : option config_value) (f : settings_file)
    : option config_value :=
  match load_settings f !! key with
  | Some v => Some v
  | None =>
      match DEFAULT_CONFIG !! key with
      | Some v => Some v
      | None => default
      end
  end.

(** [set_config(key, value)] *)
Definition set_config (o : write_outcome) (key : string) (value : config_value)
    (f : settings_file) : settings_file * bool :=
  save_settings o (<[key := value]> (load_settings f)) f.

(** [reset_to_defaults()] *)
Definition reset_to_defaults (o : write_outcome) (f : settings_file) : settings_file * bool :=
  save_settings o DEFAULT_CONFIG f.

(** [get_all_config()]: [DEFAULT_CONFIG.copy()] updated with the
    loaded settings. *)
Definition get_all_config (f : settings_file) : gmap string config_value :=
  load_settings f ∪ DEFAULT_CONFIG.

(** The module variable [MAX_CONSECUTIVE_DUPLICATES] that
    [reload_config] (and the import of the module) sets:
    [_settings["MAX_CONSECUTIVE_DUPLICATES"]]; [None] is a [KeyError]. *)
Definition reload_max_duplicates (f : settings_file) : option config_value :=
  get_all_config f !! "MAX_CONSECUTIVE_DUPLICATES".

(** Entry 8 of [settings_menu]: the text typed, stripped, is refused
    when it is a navigation letter, empty, or rejected by [int(...)]
    ([int_accepts] is what [int(new_val)] did); otherwise the text
    itself is handed to [set_config]. *)
Definition is_navigation (new_val : string) : bool :=
  existsb (String.eqb (upper new_val)) ["B"; "M"; "Q"].

Definition menu_set_threshold (o : write_outcome) (typed : string) (int_accepts : bool)
    (f : settings_file) : settings_file :=
  let new_val := strip typed in
  if is_navigation new_val then f
  else if negb (nonempty new_val) then f
  else if negb int_accepts then f
  else (set_config o "MAX_CONSECUTIVE_DUPLICATES" (VStr new_val) f).1.

Section Loop.
Variable downloaded_post_ids : gset string.
Variable max_duplicates : config_value.
Variable max_range : option Z.

(** The body of the loop of [run_gallery_dl_scan_posts] with the
    threshold as the settings hold it.  [duplicate_count >= max_duplicates]
    is evaluated only for a duplicate that opens a new group; between a
    number and a text it raises [TypeError] ([None]).  Elsewhere the
    threshold plays no part in the state. *)
Definition scan_candidate_cfg (line : string) (st : scan_state)
    : option (scan_state * bool) :=
  if is_duplicate downloaded_post_ids line
     && differs (post_id_of line) (last_post_id st)
  then
    match max_duplicates with
    | VInt n => Some (scan_candidate downloaded_post_ids n max_range line st)
    | VStr _ => None
    end
  else Some (scan_candidate downloaded_post_ids 0 max_range line st).

Fixpoint scan_lines_cfg (lines : list string) (st : scan_state) : option scan_state :=
  match lines with
  | [] => Some st
  | raw :: rest =>
      let line := normalize raw in
      if is_media_line line then
        match scan_candidate_cfg line st with
        | Some (st', stop) => if stop then Some st' else scan_lines_cfg rest st'
        | None => None
        end
      else scan_lines_cfg rest st
  end.

End Loop.

(** [run_gallery_dl_scan_posts] with [config.MAX_CONSECUTIVE_DUPLICATES]
    as the settings hold it: an exception in the loop is caught by
    [except Exception] and gives [([], False, False)]. *)
Definition run_gallery_dl_scan_posts_cfg (downloaded_ids : gset string)
    (max_duplicates : config_value) (max_range : option Z) (result : listing)
    : list post_media * bool * bool :=
  match result with
  | Completed stdout returncode =>
      match scan_lines_cfg (downloaded_post_ids_of downloaded_ids) max_duplicates
              max_range (stdout_lines stdout) init_state with
      | Some st =>
          (media_list st,
           negb (Nat.eqb (length (media_list st)) 0) || (returncode =? 0),
           stopped_early st)
      | None => ([], false, false)
      end
  | Raised => ([], false, false)
  end.

End Config.

(** ** Pacing: [configure_sleep_settings] and the pause tests *)

Module Pacing.
Import Config.

(** [REQUEST_SLEEP] and [DOWNLOAD_SLEEP]: a pair of numbers, or, in
    auto mode, the value the settings hold ([config.SLEEP_REQUEST],
    [config.SLEEP_DOWNLOAD]). *)
Inductive sleep_value :=
| Interval (lo hi : Z)
| FromSettings (v : config_value).

(** The custom branch: [(max(0, min), max(min, max))], or the
    recommended pair when [int(...)] raised on one of the two answers
    ([None]). *)
Definition custom_interval (lo hi : option Z) (recommended : Z * Z) : sleep_value :=
  match lo, hi with
  | Some a, Some b => Interval (Z.max 0 a) (Z.max a b)
  | _, _ => Interval recommended.1 recommended.2
  end.

(** [configure_sleep_settings]; [choice] is the answer stripped and
    lower-cased. *)
Definition configure_sleep_settings (auto_mode : bool)
    (sleep_request sleep_download : config_value) (choice : string)
    (req_min req_max dl_min dl_max : option Z) : sleep_value * sleep_value :=
  if auto_mode then (FromSettings sleep_request, FromSettings sleep_download)
  else if String.eqb choice "推荐" || String.eqb choice "r" then
    (Interval 30 90, Interval 5 15)
  else if String.eqb choice "y" || String.eqb choice "yes" then
    (custom_interval req_min req_max (30, 90), custom_interval dl_min dl_max (5, 15))
  else (Interval 0 0, Interval 0 0).

(** What a pause test does:
    [if hasattr(__builtins__, 'REQUEST_SLEEP') and REQUEST_SLEEP[1] > 0:
       sleep_time = random.randint(REQUEST_SLEEP[0], REQUEST_SLEEP[1])]. *)
Inductive pause :=
| NoPause
| PauseBetween (lo hi : Z)   (* the arguments of [random.randint] *)
| PauseRaises.               (* [TypeError] or [IndexError] in the test *)

(** [__builtins__] is the [builtins] module in the main program and a
    dictionary, on which [hasattr] finds no setting, in an imported
    module.  A text or a number of the settings cannot be indexed and
    compared with [0]. *)
Definition pause_test (builtins_is_module : bool) (v : sleep_value) : pause :=
  if builtins_is_module then
    match v with
    | Interval lo hi => if 0 <? hi then PauseBetween lo hi else NoPause
    | FromSettings _ => PauseRaises
    end
  else NoPause.

End Pacing.

(** ** The account list: [manage_accounts_menu] *)

Module Accounts.
Import PyStr.

Definition at_sign : ascii := ascii_of_nat 64.

(** [s.lstrip('@')] *)
Fixpoint lstrip_char (x : ascii) (s : string) : string :=
  match s with
  | EmptyString => EmptyString
  | String c r => if Ascii.eqb c x then lstrip_char x r else s
  end.

(** The characters of [[a-zA-Z0-9_.]]. *)
Definition account_char (c : ascii) : bool :=
  is_lower_char c || is_upper_char c || is_digit_char c
  || Ascii.eqb c Feed.underscore || Ascii.eqb c Feed.dot.

Definition last_char (s : string) : option ascii :=
  last (list_ascii_of_string s).

(** The text before a final newline, where [$] also matches. *)
Fixpoint chop_newline (s : string) : string :=
  match s with
  | EmptyString => EmptyString
  | String c EmptyString => if Ascii.eqb c Feed.newline then EmptyString else s
  | String c r => String c (chop_newline r)
  end.

(** [re.match(r'^[a-zA-Z0-9_.]+$', s)] *)
Definition valid_account_name (s : string) : bool :=
  nonempty (chop_newline s) && all_chars account_char (chop_newline s).

(** Entry 1 of the menu: the account list after the name typed was
    handled; [confirm] is the answer of [ask_yes_no]. *)
Definition add_account (accounts : list string) (typed : string) (confirm : bool)
    : list string :=
  let new_account := lower (upper (strip typed)) in
  if String.eqb new_account "b" then accounts
  else if String.eqb new_account "m" then accounts
  else if negb (nonempty new_account) then accounts
  else
    let new_account := lstrip_char at_sign new_account in
    if bool_decide (new_account ∈ accounts) then accounts
    else if negb (valid_account_name new_account) then accounts
    else if confirm then accounts ++ [new_account]
    else accounts.

(** [accounts.remove(account)]: the first occurrence goes. *)
Fixpoint list_remove (x : string) (l : list string) : list string :=
  match l with
  | [] => []
  | y :: r => if String.eqb y x then r else y :: list_remove x r
  end.

(** Entry 2 of the menu: [choice] is what [int(acc_choice)] gave
    ([None] when it raised). *)
Definition remove_account (accounts : list string) (choice : option Z) (confirm : bool)
    : list string :=
  match choice with
  | Some n =>
      if (1 <=? n) && (n <=? Z.of_nat (length accounts)) then
        match accounts !! Z.to_nat (n - 1) with
        | Some account => if confirm then list_remove account accounts else accounts
        | None => accounts
        end
      else accounts
  | None => accounts
  end.

End Accounts.

(** * Properties *)

(** ** Facts about the string operations *)

Module PyStrFacts.
Import PyStr.

Lemma app_cons (c : ascii) (s t : string) : String c s +:+ t = String c (s +:+ t).
Proof. reflexivity. Qed.

Lemma app_empty (t : string) : "" +:+ t = t.
Proof. reflexivity. Qed.

Lemma app_empty_r (s : string) : s +:+ "" = s.
Proof. induction s as [|c s IH]; [done |]. by rewrite app_cons, IH. Qed.

Lemma startswith_spec (p s : string) :
  startswith p s = true <-> exists t, s = p +:+ t.
Proof.
  revert s; induction p as [|a p IH]; intros s; simpl.
  - split; [intros _; by exists s | done].
  - destruct s as [|b s].
    + split; [done | intros [t Ht]; discriminate].
    + destruct (Ascii.eqb_spec a b) as [->|Hne].
      * rewrite IH. split; intros [t Ht]; exists t; rewrite app_cons in *; congruence.
      * split; [done | intros [t Ht]; rewrite app_cons in Ht; congruence].
Qed.

Lemma contains_spec (p s : string) :
  contains p s = true <-> exists a b, s = a +:+ p +:+ b.
Proof.
  induction s as [|c s IH]; simpl.
  - rewrite orb_false_r, startswith_spec. split.
    + intros [t Ht]. by exists "", t.
    + intros (a & b & Hab). destruct a; [by exists b | discriminate].
  - rewrite orb_true_iff, startswith_spec, IH. split.
    + intros [[t Ht] | (a & b & Hab)].
      * by exists "", t.
      * exists (String c a), b. by rewrite app_cons, Hab.
    + intros (a & b & Hab). destruct a as [|x a].
      * left. by exists b.
      * right. exists a, b. rewrite app_cons in Hab. congruence.
Qed.

Lemma endswith_spec (p s : string) :
  endswith p s = true <-> exists a, s = a +:+ p.
Proof.
  induction s as [|c s IH]; simpl.
  - rewrite String.eqb_eq. split.
    + intros ->. by exists "".
    + intros [a Ha]. destruct a; [done | discriminate].
  - rewrite orb_true_iff, String.eqb_eq, IH. split.
    + intros [-> | [a Ha]]; [by exists "" |].
      exists (String c a). by rewrite app_cons, Ha.
    + intros [a Ha]. destruct a as [|x a]; [by left |].
      right. exists a. rewrite app_cons in Ha. congruence.
Qed.

Lemma endswith_contains (p s : string) :
  endswith p s = true -> contains p s = true.
Proof.
  rewrite endswith_spec, contains_spec. intros [a ->]. exists a, "".
  by rewrite app_empty_r.
Qed.




Lemma nonempty_true (s : string) : nonempty s = true <-> s <> "".
Proof. destruct s; simpl; split; congruence. Qed.

(** The operations on the texts a listing is made of. *)

Example strip_line : strip "  3_1.mp4 " = "3_1.mp4".
Proof. reflexivity. Qed.

Example rsplit1_last_dot : rsplit1 Feed.dot "A.JPG.TXT" = Some ("A.JPG", "TXT").
Proof. reflexivity. Qed.

Example split_head_first_underscore : split_head Feed.underscore "12_3_4" = "12".
Proof. reflexivity. Qed.

Example split_on_newline :
  split_on Feed.newline (String Feed.newline "b") = [""; "b"]
  /\ split_on Feed.newline "" = [""].
Proof. split; reflexivity. Qed.

Example isdigit_empty : isdigit "" = false /\ isdigit "12" = true.
Proof. split; reflexivity. Qed.

Example normalize_marked_line : Feed.normalize "# 1_1.jpg" = "1_1.JPG".
Proof. reflexivity. Qed.

End PyStrFacts.

(** ** Facts about the post scan *)

Module PostsFacts.
Import PyStr Feed Posts Notions.

Lemma range_reached_set (rng : option Z) (i : Z) :
  range_reached rng i = true -> range_set rng = true.
Proof. destruct rng as [r|]; simpl; [|done]. by intros [? _]%andb_true_iff. Qed.

Section Loop.
Variable ids : gset string.
Variable thr : Z.
Variable rng : option Z.

Local Abbreviation step := (scan_candidate ids thr rng).
Local Abbreviation scan := (scan_cands ids thr rng).
Local Abbreviation trace := (trace_cands ids thr rng).
Local Abbreviation counts c last := (is_duplicate ids c && differs (post_id_of c) last).

Ltac step_cases line st :=
  unfold scan_candidate;
  destruct (is_duplicate ids line) eqn:Hdup;
  [ destruct (differs (post_id_of line) (last_post_id st)) eqn:Hnew;
    [ destruct (thr <=? duplicate_count st + 1) eqn:Hthr | ]
  | destruct (range_reached rng (media_index st + 1)) eqn:Hrng ];
  simpl.

(** *** One candidate *)

Lemma step_media_index line st : media_index (step line st).1 = media_index st + 1.
Proof. step_cases line st; reflexivity. Qed.

Lemma step_last_post_id line st : last_post_id (step line st).1 = Some (post_id_of line).
Proof. step_cases line st; reflexivity. Qed.

Lemma step_duplicate_count line st :
  duplicate_count (step line st).1
  = duplicate_count st + (if counts line (last_post_id st) then 1 else 0).
Proof. step_cases line st; lia. Qed.

Lemma step_stop line st :
  (step line st).2
  = (counts line (last_post_id st) && (thr <=? duplicate_count st + 1))
    || (negb (is_duplicate ids line) && range_reached rng (media_index st + 1)).
Proof. step_cases line st; reflexivity. Qed.

Lemma step_stopped_early line st :
  stopped_early (step line st).1 = (step line st).2 || stopped_early st.
Proof. step_cases line st; reflexivity. Qed.

Lemma step_media_list_dup line st :
  is_duplicate ids line = true -> media_list (step line st).1 = media_list st.
Proof. intros H. step_cases line st; done. Qed.

Lemma step_media_list_new line st :
  is_duplicate ids line = false ->
  exists m, media_list (step line st).1 = (media_list st ++ [m])%list
            /\ pm_filename m = line
            /\ pm_media_index m = media_index st + 1.
Proof. intros H. step_cases line st; try done; eauto. Qed.

(** *** The loop on raw lines is the loop on the candidates *)

Lemma scan_lines_cands lines st :
  scan_lines ids thr rng lines st = scan (candidates lines) st.
Proof.
  revert st; induction lines as [|raw rest IH]; intros st; [done |].
  unfold candidates in *. rewrite fmap_cons, filter_cons. simpl.
  destruct (is_media_line (normalize raw)) eqn:Hm.
  - rewrite decide_True by done. simpl.
    destruct (step (normalize raw) st) as [st1 [|]]; [done | apply IH].
  - rewrite decide_False by congruence. apply IH.
Qed.

Lemma scan_trace_cands lines st :
  scan_trace ids thr rng lines st = trace (candidates lines) st.
Proof.
  revert st; induction lines as [|raw rest IH]; intros st; [done |].
  unfold candidates in *. rewrite fmap_cons, filter_cons. simpl.
  destruct (is_media_line (normalize raw)) eqn:Hm.
  - rewrite decide_True by done. simpl.
    destruct (step (normalize raw) st) as [st1 [|]]; [done | by rewrite IH].
  - rewrite decide_False by congruence. apply IH.
Qed.

(** *** The trace *)

Lemma trace_length_le cs st : (length (trace cs st) <= length cs)%nat.
Proof.
  revert st; induction cs as [|c r IH]; intros st; simpl; [lia |].
  destruct (step c st) as [st1 [|]]; simpl; [lia |]. specialize (IH st1). lia.
Qed.

Lemma trace_last cs st : scan cs st = default st (last (trace cs st)).
Proof.
  revert st; induction cs as [|c r IH]; intros st; simpl; [done |].
  destruct (step c st) as [st1 [|]]; simpl; [done |].
  rewrite IH. destruct (trace r st1) as [|x l] eqn:Ht; [done |].
  rewrite last_cons_cons.
  destruct (last_is_Some (x :: l)) as [_ [y ->]]; done.
Qed.

Lemma trace_media_index cs st :
  map media_index (trace cs st)
  = seqZ (media_index st + 1) (Z.of_nat (length (trace cs st))).
Proof.
  revert st; induction cs as [|c r IH]; intros st; simpl; [done |].
  pose proof (step_media_index c st) as Hi.
  destruct (step c st) as [st1 [|]]; simpl in *.
  - by rewrite Hi.
  - rewrite seqZ_cons by lia. rewrite IH, Hi. do 2 f_equal; lia.
Qed.

Lemma scan_media_index cs st :
  media_index (scan cs st) = media_index st + Z.of_nat (length (trace cs st)).
Proof.
  revert st; induction cs as [|c r IH]; intros st; simpl; [lia |].
  pose proof (step_media_index c st) as Hi.
  destruct (step c st) as [st1 [|]]; simpl in *; [lia |]. rewrite IH. lia.
Qed.

Lemma scan_not_stopped cs st :
  stopped_early (scan cs st) = false -> length (trace cs st) = length cs.
Proof.
  revert st; induction cs as [|c r IH]; intros st; simpl; [done |].
  pose proof (step_stopped_early c st) as Hs.
  destruct (step c st) as [st1 [|]]; simpl in *.
  - rewrite Hs. done.
  - intros H. by rewrite IH.
Qed.

(** *** The duplicate counter *)

Lemma scan_duplicate_count cs st :
  duplicate_count (scan cs st)
  = duplicate_count st
    + new_group_duplicates ids (last_post_id st) (take (length (trace cs st)) cs).
Proof.
  revert st; induction cs as [|c r IH]; intros st; simpl; [lia |].
  pose proof (step_duplicate_count c st) as Hd.
  pose proof (step_last_post_id c st) as Hl.
  destruct (step c st) as [st1 [|]]; simpl in *.
  - rewrite Hd. destruct r; simpl; lia.
  - rewrite IH, Hl, Hd. lia.
Qed.

(** *** How the loop ends *)

Lemma scan_stop cs st :
  stopped_early st = false ->
  0 <= duplicate_count st < Z.max 1 thr ->
  Forall (fun m => pm_media_index m <= media_index st
                   /\ range_reached rng (pm_media_index m) = false) (media_list st) ->
  (stopped_early (scan cs st) = false
   /\ 0 <= duplicate_count (scan cs st) < Z.max 1 thr
   /\ Forall (fun m => range_reached rng (pm_media_index m) = false)
        (media_list (scan cs st)))
  \/ (stopped_early (scan cs st) = true
      /\ 1 <= duplicate_count (scan cs st) /\ thr <= duplicate_count (scan cs st)
      /\ Forall (fun m => pm_media_index m < media_index (scan cs st)
                          /\ range_reached rng (pm_media_index m) = false)
           (media_list (scan cs st)))
  \/ (stopped_early (scan cs st) = true
      /\ 0 <= duplicate_count (scan cs st) < Z.max 1 thr
      /\ range_reached rng (media_index (scan cs st)) = true
      /\ exists m, last (media_list (scan cs st)) = Some m
                   /\ pm_media_index m = media_index (scan cs st)).
Proof.
  revert st; induction cs as [|c r IH]; intros st Hs Hd Hf; simpl.
  { left. split; [done |]. split; [done |].
    eapply Forall_impl; [exact Hf |]. by intros m [_ ?]. }
  step_cases c st.
  - right; left. split; [done |]. split; [lia |]. split; [lia |].
    eapply Forall_impl; [exact Hf |]. simpl. intros m [? ?]. split; [lia | done].
  - apply IH; simpl; [done | lia |].
    eapply Forall_impl; [exact Hf |]. simpl. intros m [? ?]. split; [lia | done].
  - apply IH; simpl; [done | lia |].
    eapply Forall_impl; [exact Hf |]. simpl. intros m [? ?]. split; [lia | done].
  - right; right. split; [done |]. split; [done |]. split; [done |].
    eexists. rewrite last_snoc. split; [reflexivity | done].
  - apply IH; simpl; [done | done |].
    apply Forall_app. split.
    + eapply Forall_impl; [exact Hf |]. simpl. intros m [? ?]. split; [lia | done].
    + repeat constructor; simpl; [lia | done].
Qed.

(** *** The emitted items *)

Lemma scan_items cs st m :
  m ∈ media_list (scan cs st) ->
  m ∈ media_list st
  \/ exists k : nat,
       pm_media_index m = media_index st + Z.of_nat (S k)
       /\ cs !! k = Some (pm_filename m)
       /\ is_duplicate ids (pm_filename m) = false.
Proof.
  revert st; induction cs as [|c r IH]; intros st; simpl; [by left |].
  pose proof (step_media_index c st) as Hi.
  assert (Hone : m ∈ media_list (step c st).1 ->
                 m ∈ media_list st
                 \/ (pm_media_index m = media_index st + 1 /\ pm_filename m = c
                     /\ is_duplicate ids c = false)).
  { destruct (is_duplicate ids c) eqn:Hdup.
    - rewrite step_media_list_dup by done. by left.
    - destruct (step_media_list_new c st Hdup) as (x & -> & Hx1 & Hx2).
      rewrite elem_of_app, list_elem_of_singleton. intros [? | ->]; [by left | by right]. }
  assert (Hhere : m ∈ media_list (step c st).1 ->
                  m ∈ media_list st
                  \/ exists k : nat,
                       pm_media_index m = media_index st + Z.of_nat (S k)
                       /\ (c :: r) !! k = Some (pm_filename m)
                       /\ is_duplicate ids (pm_filename m) = false).
  { intros [? | (H1 & H2 & H3)]%Hone; [by left | right].
    exists 0%nat. simpl. split; [lia |]. split; [by rewrite H2 |]. by rewrite H2. }
  destruct (step c st) as [st1 [|]]; simpl in *; [done |].
  intros [Hin | (k & Hk1 & Hk2 & Hk3)]%IH; [by apply Hhere |].
  right. exists (S k). simpl. split; [lia |]. by split.
Qed.

Lemma step_bound c st :
  Forall (fun m => pm_media_index m <= media_index st) (media_list st) ->
  Forall (fun m => pm_media_index m <= media_index (step c st).1)
    (media_list (step c st).1).
Proof.
  intros Hf. rewrite step_media_index.
  assert (Forall (fun m => pm_media_index m <= media_index st + 1) (media_list st)) as Hf'.
  { eapply Forall_impl; [exact Hf |]. simpl. intros; lia. }
  destruct (is_duplicate ids c) eqn:Hdup.
  - by rewrite step_media_list_dup.
  - destruct (step_media_list_new c st Hdup) as (x & -> & Hx1 & Hx2).
    apply Forall_app. split; [done |]. repeat constructor. lia.
Qed.

Lemma step_sorted c st :
  Forall (fun m => pm_media_index m <= media_index st) (media_list st) ->
  StronglySorted Z.lt (map pm_media_index (media_list st)) ->
  StronglySorted Z.lt (map pm_media_index (media_list (step c st).1)).
Proof.
  intros Hf Hsorted.
  destruct (is_duplicate ids c) eqn:Hdup.
  - by rewrite step_media_list_dup.
  - destruct (step_media_list_new c st Hdup) as (x & -> & Hx1 & Hx2).
    rewrite map_app. apply StronglySorted_app_2; [| done | repeat constructor].
    intros i j Hi Hj. apply list_elem_of_singleton in Hj as ->.
    apply list_elem_of_fmap in Hi as (m & -> & Hm).
    rewrite Forall_forall in Hf. specialize (Hf m Hm). simpl in *. lia.
Qed.

Lemma scan_sorted cs st :
  Forall (fun m => pm_media_index m <= media_index st) (media_list st) ->
  StronglySorted Z.lt (map pm_media_index (media_list st)) ->
  StronglySorted Z.lt (map pm_media_index (media_list (scan cs st))).
Proof.
  revert st; induction cs as [|c r IH]; intros st Hf Hsorted; simpl; [done |].
  pose proof (step_bound c st Hf) as Hb.
  pose proof (step_sorted c st Hf Hsorted) as Hs.
  destruct (step c st) as [st1 [|]]; simpl in *; [done | by apply IH].
Qed.

Lemma scan_emitted cs st :
  map pm_filename (media_list (scan cs st))
  = (map pm_filename (media_list st)
     ++ filter (fun c => is_duplicate ids c = false) (take (length (trace cs st)) cs))%list.
Proof.
  revert st; induction cs as [|c r IH]; intros st; simpl; [by rewrite app_nil_r |].
  assert (map pm_filename (media_list (step c st).1)
          = (map pm_filename (media_list st)
             ++ filter (fun c => is_duplicate ids c = false) [c])%list) as Hone.
  { rewrite filter_cons, filter_nil. destruct (is_duplicate ids c) eqn:Hdup.
    - rewrite decide_False by congruence.
      by rewrite step_media_list_dup, app_nil_r.
    - rewrite decide_True by done.
      destruct (step_media_list_new c st Hdup) as (x & -> & Hx & _).
      by rewrite map_app, <- Hx. }
  destruct (step c st) as [st1 [|]]; simpl in *.
  - by rewrite take_0.
  - rewrite IH, Hone, <- app_assoc. f_equal.
    rewrite (filter_cons _ c). rewrite filter_cons, filter_nil.
    destruct (decide (is_duplicate ids c = false)); done.
Qed.

End Loop.
End PostsFacts.

(** ** The post scan: what the specification states of it *)

Module PostsClaims.
Import PyStr Feed Posts Notions PostsFacts.

Lemma scan_bound ids thr rng cs st :
  Forall (fun m => pm_media_index m <= media_index st) (media_list st) ->
  Forall (fun m => pm_media_index m <= media_index (scan_cands ids thr rng cs st))
    (media_list (scan_cands ids thr rng cs st)).
Proof.
  revert st; induction cs as [|c r IH]; intros st Hf; simpl; [done |].
  pose proof (step_bound ids thr rng c st Hf) as Hb.
  destruct (scan_candidate ids thr rng c st) as [st1 [|]]; simpl in *; [done | by apply IH].
Qed.

Lemma is_duplicate_agree (ids ids' : gset string) (c : string) :
  (post_id_of c ∈ ids <-> post_id_of c ∈ ids') ->
  is_duplicate ids c = is_duplicate ids' c.
Proof. apply bool_decide_ext. Qed.

Lemma scan_cands_ext ids ids' thr rng cs st :
  Forall (fun c => is_duplicate ids c = is_duplicate ids' c) cs ->
  scan_cands ids thr rng cs st = scan_cands ids' thr rng cs st.
Proof.
  intros Hall; revert st; induction Hall as [|c r Hc Hr IH]; intros st; simpl; [done |].
  unfold scan_candidate. rewrite Hc.
  destruct (is_duplicate ids' c);
    [ destruct (differs _ _); [destruct (thr <=? _) |] | destruct (range_reached _ _) ];
    simpl; first [done | apply IH].
Qed.

(** C1 (amended).  In a post scan, whatever the threshold and the cap:
    handling one candidate adds 1 to the duplicate counter when the
    candidate is a duplicate that opens a new group and leaves it
    unchanged otherwise, so the final counter is the number of
    new-group duplicates among the candidates handled and is never
    reset.  The scan stops early exactly when a counted duplicate has
    brought the counter to the threshold (the counter is at least 1
    and at least the threshold: for a threshold of 1 or more, it has
    reached the threshold) or an emitted item has reached the
    [max_range] cap.  The two cases exclude each other: in the first
    the candidate that ended the scan is not emitted, in the second it
    is the last item emitted.  Without a cap and with a threshold of 1
    or more, the scan stops early exactly when the counter reaches the
    threshold. *)
Theorem duplicate_streak_and_early_stop
    (ids : gset string) (max_duplicates : Z) (max_range : option Z)
    (lines : list string) :
  let st := scan_lines ids max_duplicates max_range lines init_state in
  let by_streak := 1 <= duplicate_count st /\ max_duplicates <= duplicate_count st in
  let by_cap :=
    exists m, m ∈ media_list st /\ range_reached max_range (pm_media_index m) = true in
  (forall line s,
      duplicate_count (scan_candidate ids max_duplicates max_range line s).1
      = duplicate_count s
        + (if is_duplicate ids line && differs (post_id_of line) (last_post_id s)
           then 1 else 0))
  /\ duplicate_count st
     = new_group_duplicates ids None
         (take (Z.to_nat (media_index st)) (candidates lines))
  /\ (stopped_early st = true <-> by_streak \/ by_cap)
  /\ ~ (by_streak /\ by_cap)
  /\ (by_streak ->
      Forall (fun m => pm_media_index m < media_index st) (media_list st))
  /\ (by_cap ->
      range_reached max_range (media_index st) = true
      /\ exists m, last (media_list st) = Some m
                   /\ pm_media_index m = media_index st)
  /\ (1 <= max_duplicates ->
      (by_streak <-> max_duplicates <= duplicate_count st))
  /\ (1 <= max_duplicates -> range_set max_range = false ->
      (stopped_early st = true <-> max_duplicates <= duplicate_count st)).
Proof.
  intros st by_streak by_cap. subst st by_streak by_cap. rewrite !scan_lines_cands.
  set (cs := candidates lines).
  set (st := scan_cands ids max_duplicates max_range cs init_state).
  assert (forall m, last (media_list st) = Some m -> m ∈ media_list st) as Hlast.
  { intros m [l ->]%last_Some. apply elem_of_app. right. by left. }
  pose proof (scan_stop ids max_duplicates max_range cs init_state) as Hstop.
  specialize (Hstop eq_refl ltac:(simpl; lia) ltac:(constructor)). fold st in Hstop.
  split; [apply step_duplicate_count |].
  split.
  { unfold st. rewrite scan_duplicate_count, scan_media_index.
    change (media_index init_state) with 0.
    change (duplicate_count init_state) with 0.
    by rewrite !Z.add_0_l, Nat2Z.id. }
  destruct Hstop as [(He & Hd & Hf) | [(He & Hd1 & Hd2 & Hf) | (He & Hd & Hc & m & Hm & Hi)]].
  - (* the scan went through the listing *)
    assert (~ exists m, m ∈ media_list st
                        /\ range_reached max_range (pm_media_index m) = true) as Hnocap.
    { intros (m & Hm & Hr). rewrite Forall_forall in Hf. rewrite (Hf m Hm) in Hr. done. }
    split; [split; [congruence | intros [[? ?] | ?]; [lia | done]] |].
    split; [intros [[? ?] _]; lia |].
    split; [intros [? ?]; lia |].
    split; [done |].
    split; [intros ?; split; [intros [? ?] | intros ?]; lia |].
    intros ? _. split; [congruence | lia].
  - (* a counted duplicate ended it *)
    assert (~ exists m, m ∈ media_list st
                        /\ range_reached max_range (pm_media_index m) = true) as Hnocap.
    { intros (m & Hm & Hr). rewrite Forall_forall in Hf.
      destruct (Hf m Hm) as [_ Hno]. rewrite Hno in Hr. done. }
    split; [split; [intros _; left; lia | done] |].
    split; [intros [_ ?]; done |].
    split; [intros _; eapply Forall_impl; [exact Hf |]; by intros x [? _] |].
    split; [done |].
    split; [intros ?; split; [intros [? ?] | intros ?]; lia |].
    intros ? _. split; [intros _; lia | done].
  - (* an emitted item reached the cap *)
    split; [split; [intros _; right; exists m; split; [by apply Hlast | by rewrite Hi] | done] |].
    split; [intros [[? ?] _]; lia |].
    split; [intros [? ?]; lia |].
    split; [intros _; split; [done | by exists m] |].
    split; [intros ?; split; [intros [? ?] | intros ?]; lia |].
    intros ? Hr. apply range_reached_set in Hc. congruence.
Qed.

(** C1, as stated, fails in both directions.  With a [max_range] cap
    of 1 a single new item ends the scan early although the counter is
    0, below the threshold 3, and the item that ended it is emitted.
    With a threshold of 0 and no cap the counter, 0, is at the
    threshold, yet the scan of a new item does not stop early: the
    threshold is only tested after an increment. *)
Lemma early_stop_without_streak :
  let st := scan_posts ∅ default_max_duplicates (Some 1) "1_1.jpg" in
  let st0 := scan_posts ∅ 0 None "1_1.jpg" in
  (stopped_early st = true
   /\ duplicate_count st = 0 /\ duplicate_count st < default_max_duplicates
   /\ map pm_filename (media_list st) = ["1_1.JPG"])
  /\ (stopped_early st0 = false
      /\ duplicate_count st0 = 0 /\ 0 <= duplicate_count st0).
Proof. vm_compute. repeat split; congruence. Qed.

(** *** Scanning a listing group by group *)

Import Groups.

Lemma is_group_spec (p : string) (g : list string) :
  is_group (p, g) = true -> g <> [] /\ Forall (fun c => post_id_of c = p) g.
Proof.
  unfold is_group. simpl. destruct g as [|c g]; [done |]. intros H. split; [done |].
  apply Forall_forall. intros x Hx%list_elem_of_In.
  rewrite forallb_forall in H. by apply String.eqb_eq, H.
Qed.

Lemma differs_other (p q : string) : q <> p -> differs p (Some q) = true.
Proof. intros H. simpl. apply negb_true_iff, String.eqb_neq. congruence. Qed.

Lemma differs_same (p : string) : differs p (Some p) = false.
Proof. simpl. by rewrite String.eqb_refl. Qed.

Section GroupLoop.
Variable ids : gset string.
Variable thr : Z.
Variable rng : option Z.

Local Abbreviation scan := (scan_cands ids thr rng).

(** The other candidates of an archived post: only the position moves. *)
Lemma scan_same_archived (p : string) (g rest : list string) (st : scan_state) :
  Forall (fun c => post_id_of c = p) g -> p ∈ ids -> last_post_id st = Some p ->
  exists st', scan (g ++ rest) st = scan rest st'
              /\ media_list st' = media_list st
              /\ duplicate_count st' = duplicate_count st
              /\ stopped_early st' = stopped_early st
              /\ new_content_count st' = new_content_count st
              /\ last_post_id st' = Some p
              /\ post_index st' = post_index st
              /\ media_index st' = media_index st + Z.of_nat (length g).
Proof.
  intros Hg Hp. revert st. induction Hg as [|c g Hc Hg IH]; intros st Hlast.
  { exists st. simpl. repeat split; try done. lia. }
  simpl. unfold scan_candidate, is_duplicate.
  rewrite Hc, bool_decide_true by done. rewrite Hlast, differs_same.
  edestruct IH as (st' & -> & H1 & H2 & H3 & H4 & H5 & H6 & H7); [reflexivity |].
  exists st'. simpl in *. repeat split; try done. lia.
Qed.

(** The other candidates of a post that is not archived are emitted,
    as long as the cap is not reached. *)
Lemma scan_same_new (p : string) (g rest : list string) (st : scan_state) :
  Forall (fun c => post_id_of c = p) g -> p ∉ ids -> last_post_id st = Some p ->
  (forall i, media_index st < i <= media_index st + Z.of_nat (length g) ->
             range_reached rng i = false) ->
  exists st', scan (g ++ rest) st = scan rest st'
              /\ advanced st st' p 0 0 (length g) g.
Proof.
  intros Hg Hp. revert st. induction Hg as [|c g Hc Hg IH]; intros st Hlast Hcap.
  { exists st. unfold advanced. simpl. rewrite app_nil_r.
    repeat split; try done; lia. }
  simpl. unfold scan_candidate, is_duplicate.
  rewrite Hc, bool_decide_false by done. rewrite Hlast, differs_same.
  rewrite (Hcap (media_index st + 1)) by (simpl; lia).
  edestruct IH as (st' & -> & H1 & H2 & H3 & H4 & H5 & H6 & H7); [reflexivity | |].
  { simpl. intros i Hi. apply Hcap. simpl. lia. }
  exists st'. unfold advanced. simpl in *. split; [done |].
  rewrite H1, H2, H3, H4, H5, H6, H7, map_app. simpl. rewrite <- app_assoc. simpl.
  repeat split; try done; lia.
Qed.

(** A group of an archived post below the threshold: counted once. *)
Lemma scan_duplicate_group (p : string) (g rest : list string) (st : scan_state) :
  is_group (p, g) = true -> p ∈ ids -> differs p (last_post_id st) = true ->
  duplicate_count st + 1 < thr ->
  exists st', scan (g ++ rest) st = scan rest st'
              /\ advanced st st' p 1 1 (length g) [].
Proof.
  intros [Hne Hg]%is_group_spec Hp Hnew Hthr.
  destruct g as [|c g]; [done |]. apply Forall_cons in Hg as [Hc Hg].
  simpl. unfold scan_candidate, is_duplicate.
  rewrite Hc, bool_decide_true by done. rewrite Hnew.
  destruct (Z.leb_spec thr (duplicate_count st + 1)); [lia |].
  edestruct (scan_same_archived p g rest) as (st' & -> & H1 & H2 & H3 & H4 & H5 & H6 & H7);
    [done | done | reflexivity |].
  exists st'. unfold advanced. simpl in *. split; [done |].
  rewrite H1, H2, H3, H4, H5, H6, H7, app_nil_r. repeat split; try done; lia.
Qed.

(** A group of an archived post that brings the counter to the
    threshold: the loop ends on its first candidate. *)
Lemma scan_duplicate_group_stops (p : string) (g rest : list string) (st : scan_state) :
  is_group (p, g) = true -> p ∈ ids -> differs p (last_post_id st) = true ->
  thr <= duplicate_count st + 1 ->
  let st' := scan (g ++ rest) st in
  media_list st' = media_list st
  /\ duplicate_count st' = duplicate_count st + 1
  /\ stopped_early st' = true
  /\ new_content_count st' = new_content_count st
  /\ last_post_id st' = Some p
  /\ post_index st' = post_index st + 1
  /\ media_index st' = media_index st + 1.
Proof.
  intros [Hne Hg]%is_group_spec Hp Hnew Hthr.
  destruct g as [|c g]; [done |]. apply Forall_cons in Hg as [Hc Hg].
  simpl. unfold scan_candidate, is_duplicate.
  rewrite Hc, bool_decide_true by done. rewrite Hnew.
  destruct (Z.leb_spec thr (duplicate_count st + 1)); [| lia]. done.
Qed.

(** A group of a post that is not archived: all its candidates are
    emitted, as long as the cap is not reached. *)
Lemma scan_new_group (p : string) (g rest : list string) (st : scan_state) :
  is_group (p, g) = true -> p ∉ ids -> differs p (last_post_id st) = true ->
  (forall i, media_index st < i <= media_index st + Z.of_nat (length g) ->
             range_reached rng i = false) ->
  exists st', scan (g ++ rest) st = scan rest st'
              /\ advanced st st' p 0 1 (length g) g.
Proof.
  intros [Hne Hg]%is_group_spec Hp Hnew Hcap.
  destruct g as [|c g]; [done |]. apply Forall_cons in Hg as [Hc Hg].
  simpl. unfold scan_candidate, is_duplicate.
  rewrite Hc, bool_decide_false by done. rewrite Hnew.
  rewrite (Hcap (media_index st + 1)) by (simpl; lia).
  edestruct (scan_same_new p g rest) as (st' & -> & H1 & H2 & H3 & H4 & H5 & H6 & H7);
    [done | done | reflexivity | |].
  { simpl. intros i Hi. apply Hcap. simpl. lia. }
  exists st'. unfold advanced. simpl in *. split; [done |].
  rewrite H1, H2, H3, H4, H5, H6, H7, map_app. simpl. rewrite <- app_assoc. simpl.
  repeat split; try done; lia.
Qed.

End GroupLoop.

(** C2 (amended).  With threshold 3, on a listing whose candidates
    fall into six successive groups classified duplicate, duplicate,
    new, duplicate, duplicate, duplicate (D1, D2, N1, D3, D4, D5), each
    of one file or more, and with no cap reached within the first
    three groups, the scan halts on the first file of D3, the fourth
    group, with the counter at 3: it has gone through three duplicate
    groups and one new group, whose files are the items emitted, and
    it never reaches D4 and D5. *)
Theorem six_groups_halt_at_third_duplicate
    (ids : gset string) (max_range : option Z) (lines : list string) (gs : list group)
    (Hlines : candidates lines = files gs)
    (Hgroups : forallb is_group gs = true)
    (Hsucc : successive gs = true)
    (Hclass : map (archived ids) gs = [true; true; false; true; true; true])
    (Hcap : forall i, 1 <= i <= Z.of_nat (length (files (take 3 gs))) ->
                      range_reached max_range i = false) :
  let st := scan_lines ids 3 max_range lines init_state in
  stopped_early st = true
  /\ duplicate_count st = 3
  /\ post_index st = 4
  /\ media_index st = Z.of_nat (length (files (take 3 gs))) + 1
  /\ last_post_id st = fst <$> gs !! 3%nat
  /\ map pm_filename (media_list st) = files (take 1 (drop 2 gs))
  /\ new_content_count st = Z.of_nat (length (files (take 1 (drop 2 gs)))).
Proof.
  intros st. subst st. rewrite scan_lines_cands, Hlines.
  destruct gs as [|[p1 d1] [|[p2 d2] [|[p3 n1] [|[p4 d3] [|[p5 d4] [|[p6 d5] [|? ?]]]]]]];
    try discriminate Hclass.
  unfold archived in Hclass. simpl in Hclass.
  injection Hclass as H1 H2 H3 H4 H5 H6.
  apply bool_decide_eq_true in H1, H2, H4.
  apply bool_decide_eq_false in H3.
  simpl in Hgroups. repeat (apply andb_true_iff in Hgroups as [? Hgroups]).
  simpl in Hsucc. repeat (apply andb_true_iff in Hsucc as [? Hsucc]).
  repeat match goal with
         | H : negb (String.eqb _ _) = true |- _ =>
             apply negb_true_iff, String.eqb_neq in H
         end.
  unfold files in *. simpl in *. rewrite !app_nil_r in *. rewrite !length_app in Hcap.
  edestruct (scan_duplicate_group ids 3 max_range p1 d1 (d2 ++ n1 ++ d3 ++ d4 ++ d5) init_state) as (s1 & -> & A1);
    [done | done | reflexivity | simpl; lia |].
  destruct A1 as (a1 & a2 & a3 & a4 & a5 & a6 & a7). simpl in *.
  edestruct (scan_duplicate_group ids 3 max_range p2 d2 (n1 ++ d3 ++ d4 ++ d5) s1) as (s2 & -> & A2);
    [done | done | rewrite a5; by apply differs_other | lia |].
  destruct A2 as (b1 & b2 & b3 & b4 & b5 & b6 & b7). simpl in *.
  edestruct (scan_new_group ids 3 max_range p3 n1 (d3 ++ d4 ++ d5) s2) as (s3 & -> & A3);
    [done | done | rewrite b5; by apply differs_other | intros i Hi; apply Hcap; lia |].
  destruct A3 as (c1 & c2 & c3 & c4 & c5 & c6 & c7). simpl in *.
  edestruct (scan_duplicate_group_stops ids 3 max_range p4 d3 (d4 ++ d5) s3)
    as (e1 & e2 & e3 & e4 & e5 & e6 & e7);
    [done | done | rewrite c5; by apply differs_other | lia |].
  rewrite e1, e2, e3, e4, e5, e6, e7, c1, b1, a1. simpl.
  rewrite !length_app. repeat split; try done; lia.
Qed.

(** Six groups of one, two or three files, the third one new; no cap. *)
Lemma six_groups_halt_at_third_duplicate_witness :
  let ids : gset string := list_to_set ["1"; "2"; "4"; "5"; "6"] in
  let gs : list group :=
    [("1", ["1_1.JPG"; "1_2.JPG"; "1_3.MP4"]); ("2", ["2_1.JPG"]);
     ("3", ["3_1.JPG"; "3_2.MP4"]); ("4", ["4_1.JPG"; "4_2.JPG"]);
     ("5", ["5_1.JPG"]); ("6", ["6_1.JPG"])] in
  let st := scan_lines ids 3 None (files gs) init_state in
  forallb is_group gs = true
  /\ successive gs = true
  /\ map (archived ids) gs = [true; true; false; true; true; true]
  /\ duplicate_count st = 3
  /\ media_index st = 7
  /\ map pm_filename (media_list st) = ["3_1.JPG"; "3_2.MP4"].
Proof.
  intros ids gs.
  assert (forallb is_group gs = true) as Hg by (vm_compute; reflexivity).
  assert (successive gs = true) as Hs by (vm_compute; reflexivity).
  assert (map (archived ids) gs = [true; true; false; true; true; true]) as Hc
    by (vm_compute; reflexivity).
  split; [exact Hg |]. split; [exact Hs |]. split; [exact Hc |].
  destruct (six_groups_halt_at_third_duplicate ids None (files gs) gs)
    as (_ & H2 & _ & H4 & _ & H6 & _); [by vm_compute | done | done | done | done |].
  split; [exact H2 |]. split; [exact H4 |]. exact H6.
Defined.

(** C2, as stated, fails: on six one-file groups so classified the
    scan does not reach the fifth group nor a counter of 4; it halts
    at the fourth group with the counter at 3.  And with a [max_range]
    cap of 3 it does not reach the fourth group either: it ends on the
    new group, the third, with the counter at 2. *)
Lemma six_groups_do_not_reach_fifth :
  let archived : gset string :=
    list_to_set ["1_1.JPG"; "2_1.JPG"; "4_1.JPG"; "5_1.JPG"; "6_1.JPG"] in
  let st := scan_lines (downloaded_post_ids_of archived) 3 None six_groups init_state in
  let capped :=
    scan_lines (downloaded_post_ids_of archived) 3 (Some 3) six_groups init_state in
  (stopped_early st = true
   /\ post_index st = 4 /\ post_index st <> 5
   /\ duplicate_count st = 3 /\ duplicate_count st <> 4)
  /\ (stopped_early capped = true
      /\ post_index capped = 3 /\ duplicate_count capped = 2).
Proof. vm_compute. repeat split; congruence. Qed.

(** C3 (amended).  A candidate of the post scan is classified as a
    duplicate exactly when some archived file name has the same post id
    (the text before the extension, up to the first underscore); a
    candidate whose own file name is archived is therefore a duplicate,
    but one that is not archived can be a duplicate too.  A duplicate is
    not emitted; a candidate that is not a duplicate is. *)
Theorem duplicate_iff_post_archived (downloaded_ids : gset string) (line : string) :
  let ids := downloaded_post_ids_of downloaded_ids in
  (is_duplicate ids line = true
   <-> exists f, f ∈ downloaded_ids /\ post_id_of f = post_id_of line)
  /\ (line ∈ downloaded_ids -> is_duplicate ids line = true)
  /\ (forall thr rng st,
        is_duplicate ids line = true ->
        media_list (scan_candidate ids thr rng line st).1 = media_list st)
  /\ (forall thr rng st,
        is_duplicate ids line = false ->
        exists m, media_list (scan_candidate ids thr rng line st).1
                  = (media_list st ++ [m])%list
                  /\ pm_filename m = line).
Proof.
  intros ids.
  assert (is_duplicate ids line = true
          <-> exists f, f ∈ downloaded_ids /\ post_id_of f = post_id_of line) as Hiff.
  { unfold is_duplicate, ids, downloaded_post_ids_of.
    rewrite bool_decide_eq_true, elem_of_map.
    split; intros (f & H1 & H2); exists f; by split. }
  split; [exact Hiff |]. split; [| split].
  - intros Hin. apply Hiff. by exists line.
  - intros thr rng st. apply step_media_list_dup.
  - intros thr rng st Hnew.
    destruct (step_media_list_new ids thr rng line st Hnew) as (m & ? & ? & _).
    by exists m.
Qed.

(** C3, as stated, fails: with only [123_1.JPG] archived, the candidate
    [123_2.JPG] is not in the archive, yet it is classified as a
    duplicate and the scan emits nothing. *)
Lemma unarchived_file_of_archived_post :
  let archived : gset string := {["123_1.JPG"]} in
  ("123_2.JPG" ∉ archived)
  /\ is_duplicate (downloaded_post_ids_of archived) "123_2.JPG" = true
  /\ media_list (scan_posts archived 3 None "123_2.jpg") = []
  /\ duplicate_count (scan_posts archived 3 None "123_2.jpg") = 1.
Proof.
  split; [rewrite elem_of_singleton; discriminate |].
  vm_compute. done.
Qed.

(** C9.  In one pass of the post scan the positions given to the
    candidates handled, the one that ends the scan included, are
    1, 2, ..., N in this order, N being the number of candidates
    handled, which is all of them when the scan does not stop early;
    the final [media_index] is N; the emitted items carry strictly
    increasing positions, each the rank of the item's line among the
    candidates; and the items emitted are, in order, those of the N
    candidates handled that are not duplicates, the others being
    skipped. *)
Theorem item_positions_dense
    (ids : gset string) (max_duplicates : Z) (max_range : option Z)
    (lines : list string) :
  let tr := scan_trace ids max_duplicates max_range lines init_state in
  let st := scan_lines ids max_duplicates max_range lines init_state in
  map media_index tr = seqZ 1 (Z.of_nat (length tr))
  /\ st = default init_state (last tr)
  /\ media_index st = Z.of_nat (length tr)
  /\ (length tr <= length (candidates lines))%nat
  /\ (stopped_early st = false -> length tr = length (candidates lines))
  /\ StronglySorted Z.lt (map pm_media_index (media_list st))
  /\ (forall m, m ∈ media_list st ->
        exists k : nat,
          pm_media_index m = Z.of_nat (S k)
          /\ (k < length tr)%nat
          /\ candidates lines !! k = Some (pm_filename m))
  /\ map pm_filename (media_list st)
     = filter (fun c => is_duplicate ids c = false)
         (take (length tr) (candidates lines)).
Proof.
  intros tr st. subst tr st. rewrite scan_trace_cands, !scan_lines_cands.
  set (cs := candidates lines).
  pose proof (scan_media_index ids max_duplicates max_range cs init_state) as Hidx.
  change (media_index init_state) with 0 in Hidx. rewrite Z.add_0_l in Hidx.
  split; [apply (trace_media_index ids max_duplicates max_range cs init_state) |].
  split; [apply trace_last |].
  split; [exact Hidx |].
  split; [apply trace_length_le |].
  split; [apply scan_not_stopped |].
  split; [apply scan_sorted; constructor |].
  split; [| apply (scan_emitted ids max_duplicates max_range cs init_state)].
  intros m Hm.
  pose proof (scan_bound ids max_duplicates max_range cs init_state ltac:(constructor)) as Hb.
  rewrite Forall_forall in Hb. specialize (Hb m Hm). rewrite Hidx in Hb.
  apply scan_items in Hm as [Hm | (k & Hk1 & Hk2 & _)]; [by apply elem_of_nil in Hm |].
  change (media_index init_state) with 0 in Hk1. rewrite Z.add_0_l in Hk1.
  exists k. split; [done |]. split; [lia | done].
Qed.

End PostsClaims.

(** ** Facts about [dict.fromkeys] and the merge *)

Module ArchiveFacts.
Import Posts Stories Archive.

Lemma add_key_elem (keys : list string) (k x : string) :
  x ∈ add_key keys k <-> x ∈ keys \/ x = k.
Proof.
  unfold add_key. case_bool_decide as Hk.
  - split; [by left | intros [? | ->]; done].
  - by rewrite elem_of_app, list_elem_of_singleton.
Qed.

Lemma add_key_NoDup (keys : list string) (k : string) :
  NoDup keys -> NoDup (add_key keys k).
Proof.
  intros Hnd. unfold add_key. case_bool_decide as Hk; [done |].
  apply NoDup_app. split; [done |]. split; [| apply NoDup_singleton].
  intros x Hx ->%list_elem_of_singleton. done.
Qed.

Lemma fromkeys_acc_elem (l acc : list string) (x : string) :
  x ∈ fold_left add_key l acc <-> x ∈ acc \/ x ∈ l.
Proof.
  revert acc; induction l as [|k l IH]; intros acc; simpl.
  - rewrite elem_of_nil. tauto.
  - rewrite IH, add_key_elem, elem_of_cons. tauto.
Qed.

Lemma fromkeys_acc_NoDup (l acc : list string) :
  NoDup acc -> NoDup (fold_left add_key l acc).
Proof.
  revert acc; induction l as [|k l IH]; intros acc Hnd; simpl; [done |].
  by apply IH, add_key_NoDup.
Qed.

Lemma fromkeys_acc_absorb (l acc : list string) :
  (forall x, x ∈ l -> x ∈ acc) -> fold_left add_key l acc = acc.
Proof.
  induction l as [|k l IH]; intros Hsub; simpl; [done |].
  unfold add_key at 2. rewrite bool_decide_eq_true_2 by (apply Hsub; left).
  apply IH. intros x Hx. apply Hsub. by right.
Qed.

Lemma fromkeys_acc_fresh (l acc : list string) :
  NoDup (acc ++ l) -> fold_left add_key l acc = (acc ++ l)%list.
Proof.
  revert acc; induction l as [|k l IH]; intros acc Hnd; simpl.
  - by rewrite app_nil_r.
  - assert (k ∉ acc) as Hk.
    { apply NoDup_app in Hnd as (_ & Hdisj & _). intros Hin.
      apply (Hdisj k Hin). left. }
    unfold add_key at 2. rewrite bool_decide_eq_false_2 by done.
    rewrite IH; [by rewrite <- app_assoc |]. by rewrite <- app_assoc.
Qed.

Lemma fromkeys_acc_prefix (l acc : list string) :
  exists t, fold_left add_key l acc = (acc ++ t)%list.
Proof.
  revert acc; induction l as [|k l IH]; intros acc; simpl.
  - exists []. by rewrite app_nil_r.
  - destruct (IH (add_key acc k)) as [t Ht]. rewrite Ht.
    unfold add_key. case_bool_decide; [by exists t |].
    exists (k :: t). by rewrite <- app_assoc.
Qed.

Lemma dict_fromkeys_elem (l : list string) (x : string) :
  x ∈ dict_fromkeys l <-> x ∈ l.
Proof.
  unfold dict_fromkeys. rewrite fromkeys_acc_elem, elem_of_nil. tauto.
Qed.

Lemma dict_fromkeys_NoDup (l : list string) : NoDup (dict_fromkeys l).
Proof. apply fromkeys_acc_NoDup, NoDup_nil_2. Qed.

Lemma dict_fromkeys_fixed (l : list string) : NoDup l -> dict_fromkeys l = l.
Proof. intros Hnd. unfold dict_fromkeys. by rewrite fromkeys_acc_fresh. Qed.

Lemma dict_fromkeys_keeps_order (old new : list string) :
  NoDup old -> exists t, dict_fromkeys (old ++ new) = (old ++ t)%list.
Proof.
  intros Hnd. unfold dict_fromkeys. rewrite fold_left_app.
  fold (dict_fromkeys old). rewrite dict_fromkeys_fixed by done.
  apply fromkeys_acc_prefix.
Qed.

Lemma dict_fromkeys_again (old new : list string) :
  dict_fromkeys (dict_fromkeys (old ++ new) ++ new) = dict_fromkeys (old ++ new).
Proof.
  set (L := dict_fromkeys (old ++ new)).
  unfold dict_fromkeys at 1. rewrite fold_left_app.
  fold (dict_fromkeys L). rewrite dict_fromkeys_fixed by apply dict_fromkeys_NoDup.
  apply fromkeys_acc_absorb. intros x Hx.
  apply dict_fromkeys_elem, elem_of_app. by right.
Qed.

Lemma record_of_merge account new_posts new_stories
    (archive : gmap string account_record) :
  record_of (merge account new_posts new_stories archive) account
  = {| posts := dict_fromkeys (posts (record_of archive account)
                               ++ map pm_filename new_posts);
       stories := dict_fromkeys (stories (record_of archive account)
                                 ++ map sm_filename new_stories) |}.
Proof. unfold merge, record_of at 1. by rewrite lookup_insert_eq. Qed.

Lemma merge_again account new_posts new_stories
    (archive : gmap string account_record) :
  merge account new_posts new_stories (merge account new_posts new_stories archive)
  = merge account new_posts new_stories archive.
Proof.
  unfold merge at 1. rewrite record_of_merge. simpl.
  rewrite !dict_fromkeys_again. unfold merge. by rewrite insert_insert_eq.
Qed.

Lemma merge_other account other new_posts new_stories
    (archive : gmap string account_record) :
  other <> account ->
  merge account new_posts new_stories archive !! other = archive !! other.
Proof. intros Hne. unfold merge. by rewrite lookup_insert_ne. Qed.

End ArchiveFacts.

(** ** The archive: what the specification states of it *)

Module ArchiveClaims.
Import Posts Stories Archive ArchiveFacts.

Lemma update_archive_returns account new_posts new_stories file :
  update_archive no_faults account new_posts new_stories file
  = (Document (merge account new_posts new_stories (load_archive file)), Some tt).
Proof. reflexivity. Qed.

(** C7.  Merging the same new items a second time leaves the archive
    file, and the archive a load returns, as the first merge left them.
    After a merge the two lists of the account hold no identifier
    twice, hold exactly the identifiers that were archived or are new,
    and keep the archived identifiers in their places ahead of the new
    ones; the other accounts are as they were. *)
Theorem merge_idempotent (account : string) (new_posts : list post_media)
    (new_stories : list story_media) (file : archive_file) :
  let before := record_of (load_archive file) account in
  let once := update_archive no_faults account new_posts new_stories file in
  let twice := update_archive no_faults account new_posts new_stories once.1 in
  let after := record_of (load_archive once.1) account in
  twice = once
  /\ load_archive twice.1 = load_archive once.1
  /\ NoDup (posts after) /\ NoDup (stories after)
  /\ (forall x, x ∈ posts after
                <-> x ∈ posts before \/ x ∈ map pm_filename new_posts)
  /\ (forall x, x ∈ stories after
                <-> x ∈ stories before \/ x ∈ map sm_filename new_stories)
  /\ (NoDup (posts before) -> exists t, posts after = (posts before ++ t)%list)
  /\ (NoDup (stories before) -> exists t, stories after = (stories before ++ t)%list)
  /\ (forall other, other <> account ->
        load_archive once.1 !! other = load_archive file !! other).
Proof.
  intros before once twice after. subst before once twice after.
  rewrite !update_archive_returns. simpl. rewrite merge_again, record_of_merge. simpl.
  split; [done |]. split; [done |].
  split; [apply dict_fromkeys_NoDup |]. split; [apply dict_fromkeys_NoDup |].
  split; [intros x; by rewrite dict_fromkeys_elem, elem_of_app |].
  split; [intros x; by rewrite dict_fromkeys_elem, elem_of_app |].
  split; [apply dict_fromkeys_keeps_order |].
  split; [apply dict_fromkeys_keeps_order |].
  intros other Hne. by apply merge_other.
Qed.

(** C8 (amended).  [update_archive] writes the merged archive into the
    destination itself, which a successful open for writing empties
    first.  When the save returns, a later load returns exactly the
    merged archive.  When it raises before the file is open, the file
    is as it was.  When it raises while the document is written, the
    file is left empty or cut short, whatever it held, and a later load
    returns the empty archive.  Every failure is raised to the caller. *)
Theorem persist_outcomes (env : faults) (account : string)
    (new_posts : list post_media) (new_stories : list story_media)
    (file : archive_file) :
  let merged := merge account new_posts new_stories (load_archive file) in
  let r := update_archive env account new_posts new_stories file in
  (raised r = false <->
   mkdir_fails env = false /\ open_fails env = false /\ dump env = DumpReturns)
  /\ (raised r = false -> r.1 = Document merged /\ load_archive r.1 = merged)
  /\ (mkdir_fails env = true \/ open_fails env = true -> r = (file, None))
  /\ (mkdir_fails env = false -> open_fails env = false ->
      forall wrote_some, dump env = DumpRaises wrote_some ->
        raised r = true
        /\ r.1 = (if wrote_some then Malformed else Blank)
        /\ load_archive r.1 = ∅).
Proof.
  intros merged r. subst merged r.
  unfold update_archive, save_archive, raised, mbind, io_bind, mkdir_parents, open_w, json_dump.
  destruct env as [[|] [|] [|[|]]]; simpl;
    (split; [split; [try done; intros _; done | intros (? & ? & ?); done] |]);
    (split; [try done |]);
    (split; [intros [? | ?]; done |]);
    intros ? ? b Hb; simplify_eq; done.
Qed.

(** C8, as stated, fails: a save that raises while the document is being
    written leaves neither the archive that was stored nor the merged
    one; the stored identifiers are gone and a load returns the empty
    archive. *)
Lemma failed_persist_loses_archive :
  let stored : gmap string account_record :=
    {[ "acct" := {| posts := ["1_1.JPG"]; stories := [] |} ]} in
  let item := {| pm_id := "2_1"; pm_post_id := "2"; pm_post_index := 1;
                 pm_media_index := 1; pm_filename := "2_1.JPG";
                 pm_media_type := Feed.Image |} in
  let env := {| mkdir_fails := false; open_fails := false; dump := DumpRaises false |} in
  let failed := update_archive env "acct" [item] [] (Document stored) in
  raised failed = true
  /\ load_archive (Document stored) !! "acct"
     = Some {| posts := ["1_1.JPG"]; stories := [] |}
  /\ load_archive failed.1 !! "acct" = None
  /\ load_archive failed.1 <> load_archive (Document stored).
Proof.
  intros stored item env failed.
  assert (failed.1 = Blank) as Hf by reflexivity.
  split; [reflexivity |]. rewrite Hf. simpl load_archive. unfold stored.
  split; [apply lookup_singleton_eq |].
  split; [apply lookup_empty |].
  intros H. apply (f_equal (fun m => m !! "acct")) in H.
  rewrite lookup_empty, lookup_singleton_eq in H. discriminate H.
Qed.

End ArchiveClaims.

(** ** Feed lines: what the specification states of them *)

Module FeedClaims.
Import PyStr Feed Notions PyStrFacts.

Lemma media_ext_nonempty (ext : string) : ext ∈ media_exts -> ext <> "".
Proof.
  unfold media_exts. rewrite !elem_of_cons, elem_of_nil.
  intros [-> | [-> | [-> | []]]]; discriminate.
Qed.

Lemma is_media_line_spec (line : string) :
  is_media_line line = true
  <-> exists ext a b, ext ∈ media_exts /\ lower line = a +:+ ext +:+ b.
Proof.
  unfold is_media_line. rewrite andb_true_iff, existsb_exists. split.
  - intros [_ (ext & Hin & Hc)]. apply contains_spec in Hc as (a & b & Hab).
    exists ext, a, b. split; [by apply list_elem_of_In | done].
  - intros (ext & a & b & Hin & Hab). split.
    + destruct line as [|c line]; [| done]. exfalso.
      apply (media_ext_nonempty ext Hin).
      destruct a; [| discriminate Hab]. rewrite app_empty in Hab.
      destruct ext; [done | discriminate Hab].
    + exists ext. split; [by apply list_elem_of_In |].
      apply contains_spec. by exists a, b.
Qed.

Lemma has_media_suffix_media_line (line : string) :
  has_media_suffix line = true -> is_media_line line = true.
Proof.
  unfold has_media_suffix. rewrite existsb_exists. intros (ext & Hin & He).
  apply is_media_line_spec. apply endswith_spec in He as [a Ha].
  exists ext, a, "". split; [by apply list_elem_of_In |].
  by rewrite app_empty_r.
Qed.



(** C4 (amended).  A line of the listing is treated as a candidate
    exactly when, once stripped, upper-cased and relieved of a leading
    ["# "], one of [.jpg], [.mp4], [.webp] occurs somewhere in its
    lower-cased text; a line that ends with one of them is therefore a
    candidate, and so is one that only contains it.  The two scans
    handle exactly these lines: the post scan gives the line a
    position (its [media_index] goes up by one) exactly when the line
    is a candidate, and the story scan counts a line with a numeric
    identifier exactly when it is a candidate.  A line that fails the
    test leaves the post scan and the story scan as they were. *)
Theorem candidate_iff_contains_extension (raw : string) :
  let contains_extension :=
    exists ext a b, ext ∈ media_exts /\ lower (normalize raw) = a +:+ ext +:+ b in
  (is_candidate raw = true <-> contains_extension)
  /\ (has_media_suffix (normalize raw) = true -> is_candidate raw = true)
  /\ (forall ids thr rng st,
        Posts.media_index (Posts.scan_lines ids thr rng [raw] st)
        = Posts.media_index st + 1
        <-> contains_extension)
  /\ (forall ids st,
        Stories.numeric_id (normalize raw) = true ->
        (Stories.total_scanned (Stories.scan_lines ids [raw] st)
         = Stories.total_scanned st + 1
         <-> contains_extension))
  /\ (is_candidate raw = false ->
      forall ids thr rng rest st,
        Posts.scan_lines ids thr rng (raw :: rest) st
        = Posts.scan_lines ids thr rng rest st)
  /\ (is_candidate raw = false ->
      forall ids rest st,
        Stories.scan_lines ids (raw :: rest) st = Stories.scan_lines ids rest st).
Proof.
  intros contains_extension. subst contains_extension.
  unfold is_candidate.
  split; [apply is_media_line_spec |].
  split; [apply has_media_suffix_media_line |].
  split.
  { intros ids thr rng st. rewrite <- is_media_line_spec. simpl.
    pose proof (PostsFacts.step_media_index ids thr rng (normalize raw) st) as Hi.
    destruct (is_media_line (normalize raw)).
    - destruct (Posts.scan_candidate ids thr rng (normalize raw) st) as [st' [|]];
        simpl in Hi; by rewrite Hi.
    - split; [lia | done]. }
  split.
  { intros ids st Hnum. rewrite <- is_media_line_spec. simpl.
    destruct (is_media_line (normalize raw)).
    - unfold Stories.scan_candidate. rewrite Hnum. by case_bool_decide.
    - split; [lia | done]. }
  split; intros Hno *; simpl; by rewrite Hno.
Qed.

(** C4, as stated, fails: [a.jpg.txt] does not end with a media
    extension, yet it is a candidate and the post scan emits it. *)
Lemma candidate_without_media_suffix :
  has_media_suffix (normalize "a.jpg.txt") = false
  /\ endswith ".jpg" "a.jpg.txt" = false
  /\ is_candidate "a.jpg.txt" = true
  /\ map Posts.pm_filename
       (Posts.media_list (Posts.scan_posts ∅ 3 None "a.jpg.txt")) = ["A.JPG.TXT"].
Proof. vm_compute. done. Qed.

End FeedClaims.

(** ** The story scan: what is stated of it *)

Module StoriesClaims.
Import PyStr Feed Stories Notions.





End StoriesClaims.

(** ** The download range: what the specification states of it *)

Module RangeClaims.
Import Posts Range.

Lemma fold_min_spec (l : list Z) (a : Z) :
  fold_left Z.min l a ∈ a :: l /\ Forall (fun x => fold_left Z.min l a <= x) (a :: l).
Proof.
  revert a; induction l as [|b l IH]; intros a; simpl.
  - split; [left | repeat constructor; lia].
  - destruct (IH (Z.min a b)) as [Hin Hall].
    apply Forall_cons in Hall as [H1 H2]. split.
    + apply elem_of_cons in Hin as [-> | Hin]; [| by right; right].
      destruct (Z.min_spec a b) as [[_ ->] | [_ ->]]; [left | right; left].
    + repeat constructor; [lia | lia | done].
Qed.

Lemma fold_max_spec (l : list Z) (a : Z) :
  fold_left Z.max l a ∈ a :: l /\ Forall (fun x => x <= fold_left Z.max l a) (a :: l).
Proof.
  revert a; induction l as [|b l IH]; intros a; simpl.
  - split; [left | repeat constructor; lia].
  - destruct (IH (Z.max a b)) as [Hin Hall].
    apply Forall_cons in Hall as [H1 H2]. split.
    + apply elem_of_cons in Hin as [-> | Hin]; [| by right; right].
      destruct (Z.max_spec a b) as [[_ ->] | [_ ->]]; [right; left | left].
    + repeat constructor; [lia | lia | done].
Qed.

(** C6.  For a non-empty list of new post items the range is the pair
    of the least and the greatest of their [media_index] values; for
    the empty list there is no range and the post download does not
    run.  A range taken from positions that are at least 1 passes the
    guard of the download.  Items at positions 3, 5, 7 give (3, 7). *)
Theorem range_is_min_max (new_posts : list post_media) :
  let positions := map pm_media_index new_posts in
  (new_posts = [] <-> posts_range new_posts = None)
  /\ posts_download_runs None = false
  /\ (forall s e, posts_range new_posts = Some (s, e) ->
        s ∈ positions /\ e ∈ positions
        /\ Forall (fun p => s <= p <= e) positions)
  /\ (new_posts <> [] -> Forall (fun p => 1 <= p) positions ->
      posts_download_runs (posts_range new_posts) = true
      /\ range_argument (posts_range new_posts) = posts_range new_posts)
  /\ (positions = [3; 5; 7] -> posts_range new_posts = Some (3, 7)).
Proof.
  intros positions. subst positions.
  split; [destruct new_posts; split; done |].
  split; [done |].
  assert (forall s e, posts_range new_posts = Some (s, e) ->
            s ∈ map pm_media_index new_posts /\ e ∈ map pm_media_index new_posts
            /\ Forall (fun p => s <= p <= e) (map pm_media_index new_posts)) as Hrange.
  { intros s e. destruct new_posts as [|m ms]; [done |]. simpl.
    unfold min_media_index, max_media_index. intros [= <- <-].
    destruct (fold_min_spec (map pm_media_index ms) (pm_media_index m)) as [Hmin Hle].
    destruct (fold_max_spec (map pm_media_index ms) (pm_media_index m)) as [Hmax Hge].
    split; [done |]. split; [done |].
    rewrite Forall_forall in *. intros p Hp. split; [by apply Hle | by apply Hge]. }
  split; [exact Hrange |]. split.
  - intros Hne Hpos. destruct (posts_range new_posts) as [[s e]|] eqn:Hr.
    + destruct (Hrange s e eq_refl) as (Hs & He & Hall).
      rewrite Forall_forall in Hpos, Hall.
      pose proof (Hpos s Hs). pose proof (Hall e He).
      assert (posts_download_runs (Some (s, e)) = true) as Hruns.
      { simpl. apply andb_true_iff. split; [apply Z.ltb_lt | apply Z.leb_le]; lia. }
      split; [done |]. unfold range_argument. by rewrite Hruns.
    + destruct new_posts; done.
  - destruct new_posts as [|m1 [|m2 [|m3 [|m4 ms]]]]; try done.
    simpl. unfold min_media_index, max_media_index. simpl. by intros [= -> -> ->].
Qed.

End RangeClaims.

(** ** The identifiers that are recorded and archived *)

Module IdentifierClaims.
Import PyStr Feed Notions PyStrFacts FeedClaims Archive ArchiveFacts.


(** *** What the normalization keeps *)










End IdentifierClaims.

(** ** More on the post scan *)

Module PostsMore.
Import PyStr Feed Posts Notions PostsFacts Archive ArchiveFacts.

Lemma range_unset_not_reached (rng : option Z) (i : Z) :
  range_set rng = false -> range_reached rng i = false.
Proof.
  destruct rng as [r|]; simpl; [| done]. intros ->. done.
Qed.

(** A scan that sees at least the duplicates of another one, and counts
    at least as many, handles no more candidates. *)
Lemma rescan_no_longer (ids ids' : gset string) thr rng cs st1 st2 :
  range_set rng = false ->
  (forall c, is_duplicate ids c = true -> is_duplicate ids' c = true) ->
  last_post_id st1 = last_post_id st2 ->
  duplicate_count st1 <= duplicate_count st2 ->
  (length (trace_cands ids' thr rng cs st2) <= length (trace_cands ids thr rng cs st1))%nat.
Proof.
  intros Hrng Hmono. revert st1 st2.
  induction cs as [|c r IH]; intros st1 st2 Hlast Hcount; simpl; [lia |].
  pose proof (step_stop ids thr rng c st1) as Hs1.
  pose proof (step_stop ids' thr rng c st2) as Hs2.
  pose proof (step_duplicate_count ids thr rng c st1) as Hd1.
  pose proof (step_duplicate_count ids' thr rng c st2) as Hd2.
  pose proof (step_last_post_id ids thr rng c st1) as Hl1.
  pose proof (step_last_post_id ids' thr rng c st2) as Hl2.
  rewrite !range_unset_not_reached, !andb_false_r, !orb_false_r in Hs1, Hs2 by done.
  rewrite <- Hlast in Hs2, Hd2.
  destruct (scan_candidate ids thr rng c st1) as [s1 b1].
  destruct (scan_candidate ids' thr rng c st2) as [s2 b2]. simpl in *.
  destruct b2; simpl; [destruct b1; simpl; lia |].
  destruct b1; simpl.
  - exfalso. symmetry in Hs1. apply andb_true_iff in Hs1 as [Hc Ht].
    apply andb_true_iff in Hc as [Hdup Hnew].
    rewrite (Hmono c Hdup), Hnew in Hs2. simpl in Hs2.
    apply Z.leb_le in Ht. symmetry in Hs2. apply Z.leb_gt in Hs2. lia.
  - apply le_n_S, IH; [congruence |]. rewrite Hd1, Hd2.
    destruct (is_duplicate ids c) eqn:Hdup.
    + rewrite (Hmono c Hdup). lia.
    + destruct (is_duplicate ids' c), (differs (post_id_of c) (last_post_id st1));
        simpl; lia.
Qed.

Lemma downloaded_posts_merge account new_posts new_stories
    (archive : gmap string account_record) (x : string) :
  x ∈ downloaded_posts (merge account new_posts new_stories archive) account
  <-> x ∈ downloaded_posts archive account \/ x ∈ map pm_filename new_posts.
Proof.
  unfold downloaded_posts. rewrite record_of_merge. simpl.
  rewrite !elem_of_list_to_set, dict_fromkeys_elem, elem_of_app. done.
Qed.

Lemma filter_none (P : string -> Prop) `{!forall x, Decision (P x)} (l : list string) :
  (forall x, x ∈ l -> ~ P x) -> filter P l = [].
Proof.
  induction l as [|x l IH]; intros Hno; [done |].
  rewrite filter_cons, decide_False by (apply Hno; left).
  apply IH. intros y Hy. apply Hno. by right.
Qed.

Lemma map_eq_nil_inv {A B : Type} (f : A -> B) (l : list A) : map f l = [] -> l = [].
Proof. by destruct l. Qed.

(** X1.  With no [max_range] cap: once the items a post scan found are
    merged into the archive, a scan of the same listing against the
    updated archive emits nothing. *)
Theorem rescan_after_merge_finds_nothing
    (account : string) (file : archive_file) (new_stories : list Stories.story_media)
    (max_duplicates : Z) (max_range : option Z) (stdout : string)
    (Hcap : range_set max_range = false) :
  let found :=
    scan_posts (downloaded_posts (load_archive file) account)
      max_duplicates max_range stdout in
  let file' := (update_archive no_faults account (media_list found) new_stories file).1 in
  media_list
    (scan_posts (downloaded_posts (load_archive file') account)
       max_duplicates max_range stdout) = [].
Proof.
  intros found file'. subst found file'.
  rewrite ArchiveClaims.update_archive_returns. simpl.
  set (old := downloaded_posts (load_archive file) account).
  unfold scan_posts. rewrite !scan_lines_cands.
  set (cs := candidates (stdout_lines stdout)).
  set (ids := downloaded_post_ids_of old).
  set (items := media_list (scan_cands ids max_duplicates max_range cs init_state)).
  set (new := downloaded_posts _ account).
  assert (forall x, x ∈ new <-> x ∈ old \/ x ∈ map pm_filename items) as Hnew.
  { intros x. apply downloaded_posts_merge. }
  set (ids' := downloaded_post_ids_of new).
  set (n := length (trace_cands ids max_duplicates max_range cs init_state)).
  assert (forall c, is_duplicate ids c = true -> is_duplicate ids' c = true) as Hmono.
  { intros c. unfold is_duplicate, ids, ids', downloaded_post_ids_of.
    rewrite !bool_decide_eq_true, !elem_of_map.
    intros (f & Hf & Hin). exists f. split; [done |]. apply Hnew. by left. }
  assert (forall c, c ∈ take n cs -> is_duplicate ids' c = true) as Hall.
  { intros c Hc. destruct (is_duplicate ids c) eqn:Hdup; [by apply Hmono |].
    unfold is_duplicate, ids', downloaded_post_ids_of.
    rewrite bool_decide_eq_true, elem_of_map. exists c. split; [done |].
    apply Hnew. right. unfold items.
    rewrite (scan_emitted ids max_duplicates max_range cs init_state). simpl.
    apply list_elem_of_filter. done. }
  apply (map_eq_nil_inv pm_filename).
  rewrite (scan_emitted ids' max_duplicates max_range cs init_state). simpl.
  pose proof (rescan_no_longer ids ids' max_duplicates max_range cs init_state init_state
                Hcap Hmono eq_refl ltac:(lia)) as Hle.
  fold n in Hle.
  apply filter_none. intros c Hc. rewrite Hall; [done |].
  apply list_elem_of_lookup in Hc as [i Hi].
  apply list_elem_of_lookup. exists i.
  apply lookup_take_Some in Hi as [? ?]. apply lookup_take_Some. split; [done | lia].
Qed.

Lemma rescan_after_merge_finds_nothing_witness :
  media_list
    (scan_posts
       (downloaded_posts
          (load_archive
             (update_archive no_faults "acct"
                (media_list (scan_posts (downloaded_posts (load_archive NoFile) "acct")
                               3 None "1_1.jpg"))
                [] NoFile).1)
          "acct")
       3 None "1_1.jpg") = [].
Proof.
  apply (rescan_after_merge_finds_nothing "acct" NoFile [] 3 None "1_1.jpg"). reflexivity.
Defined.

(** *** A listing without duplicates *)

Lemma bool_decide_ext_leb (a b c d : Z) : (a <= b <-> c <= d) -> (a <=? b) = (c <=? d).
Proof.
  intros H. destruct (Z.leb_spec a b), (Z.leb_spec c d); try done; lia.
Qed.

Lemma fresh_trace_length (ids : gset string) thr (r : Z) cs st :
  (forall c, c ∈ cs -> is_duplicate ids c = false) ->
  1 <= r -> 0 <= media_index st < r ->
  length (trace_cands ids thr (Some r) cs st)
  = Nat.min (Z.to_nat (r - media_index st)) (length cs)
  /\ stopped_early (scan_cands ids thr (Some r) cs st)
     = stopped_early st || (r - media_index st <=? Z.of_nat (length cs)).
Proof.
  intros Hfresh Hr. revert st.
  induction cs as [|c cs IH]; intros st Hidx; simpl.
  - split; [lia |].
    assert ((r - media_index st <=? Z.of_nat 0%nat) = false) as ->
      by (apply Z.leb_gt; lia).
    by rewrite orb_false_r.
  - pose proof (step_stop ids thr (Some r) c st) as Hs.
    pose proof (step_media_index ids thr (Some r) c st) as Hi.
    pose proof (step_stopped_early ids thr (Some r) c st) as He.
    rewrite (Hfresh c) in Hs by left. simpl in Hs.
    destruct (scan_candidate ids thr (Some r) c st) as [s1 b1]. simpl in *. subst b1.
    destruct (r =? 0) eqn:H0; [apply Z.eqb_eq in H0; lia |]. simpl in *.
    destruct (r <=? media_index st + 1) eqn:Hle; simpl in *.
    + apply Z.leb_le in Hle. split; [lia |]. rewrite He.
      assert ((r - media_index st <=? Z.of_nat (S (length cs))) = true) as ->
        by (apply Z.leb_le; lia).
      by rewrite orb_true_r.
    + apply Z.leb_gt in Hle.
      destruct (IH ltac:(intros x Hx; apply Hfresh; by right) s1 ltac:(lia)) as [Hlen Hstop].
      rewrite Hlen, Hstop, He, Hi. split; [lia |]. simpl. f_equal.
      apply bool_decide_ext_leb. lia.
Qed.

Lemma fresh_trace_full (ids : gset string) thr rng cs st :
  (forall c, c ∈ cs -> is_duplicate ids c = false) ->
  range_set rng = false ->
  length (trace_cands ids thr rng cs st) = length cs
  /\ stopped_early (scan_cands ids thr rng cs st) = stopped_early st.
Proof.
  intros Hfresh Hrng. revert st.
  induction cs as [|c cs IH]; intros st; simpl; [done |].
  pose proof (step_stop ids thr rng c st) as Hs.
  pose proof (step_stopped_early ids thr rng c st) as He.
  rewrite (Hfresh c), range_unset_not_reached in Hs by (done || left). simpl in Hs.
  destruct (scan_candidate ids thr rng c st) as [s1 b1]. simpl in *. subst b1. simpl in *.
  destruct (IH ltac:(intros x Hx; apply Hfresh; by right) s1) as [Hlen Hstop].
  rewrite Hlen, Hstop. done.
Qed.

Lemma filter_all (P : string -> Prop) `{!forall x, Decision (P x)} (l : list string) :
  (forall x, x ∈ l -> P x) -> filter P l = l.
Proof.
  induction l as [|x l IH]; intros Hall; [done |].
  rewrite filter_cons, decide_True by (apply Hall; left).
  f_equal. apply IH. intros y Hy. apply Hall. by right.
Qed.

(** X2.  A post scan against an empty archive (a first run, or a run
    after the post records were cleared) counts no duplicate and emits
    the candidates in listing order: all of them when no [max_range]
    cap is set, without stopping early whatever the threshold; and with
    a cap [r >= 1] the first [min r N] of the N candidates, stopping
    early exactly when [r <= N]. *)
Theorem first_scan_emits_all
    (max_duplicates : Z) (max_range : option Z) (lines : list string) :
  let st := scan_lines (downloaded_post_ids_of ∅) max_duplicates max_range lines init_state in
  let n := Z.to_nat (media_index st) in
  map pm_filename (media_list st) = take n (candidates lines)
  /\ duplicate_count st = 0
  /\ (range_set max_range = false ->
      n = length (candidates lines) /\ stopped_early st = false)
  /\ (forall r, max_range = Some r -> 1 <= r ->
        n = Nat.min (Z.to_nat r) (length (candidates lines))
        /\ (stopped_early st = true <-> r <= Z.of_nat (length (candidates lines)))).
Proof.
  intros st n. subst st n. rewrite !scan_lines_cands.
  set (ids := downloaded_post_ids_of ∅). set (cs := candidates lines).
  assert (forall c, is_duplicate ids c = false) as Hfresh.
  { intros c. unfold is_duplicate, ids, downloaded_post_ids_of.
    apply bool_decide_eq_false. rewrite elem_of_map. intros (f & _ & Hf).
    by apply elem_of_empty in Hf. }
  rewrite scan_media_index. change (media_index init_state) with 0.
  rewrite Z.add_0_l, Nat2Z.id.
  split.
  { rewrite (scan_emitted ids max_duplicates max_range cs init_state). simpl.
    apply filter_all. intros; apply Hfresh. }
  split.
  { rewrite scan_duplicate_count. simpl.
    generalize (take (length (trace_cands ids max_duplicates max_range cs init_state)) cs).
    generalize (@None string).
    intros o l; revert o; induction l as [|c l IH]; intros o; simpl; [done |].
    by rewrite Hfresh, IH. }
  split.
  - intros Hrng.
    by destruct (fresh_trace_full ids max_duplicates max_range cs init_state
                   ltac:(intros; apply Hfresh) Hrng).
  - intros r -> Hr.
    destruct (fresh_trace_length ids max_duplicates r cs init_state
                ltac:(intros; apply Hfresh) Hr ltac:(simpl; lia)) as [Hlen Hstop].
    change (media_index init_state) with 0 in Hlen, Hstop.
    change (stopped_early init_state) with false in Hstop.
    rewrite Z.sub_0_r in Hlen, Hstop. simpl in Hstop.
    split; [exact Hlen |]. rewrite Hstop. apply Z.leb_le.
Qed.


End PostsMore.

(** ** Bounds and group positions of the post scan *)

Module PostsBounds.
Import PyStr Feed Posts Notions MoreNotions PostsFacts.

(** Below the cap every emitted item lets the scan go on; only the last
    item of a scan can reach it. *)
Lemma scan_below_cap (ids : gset string) thr (r : Z) cs st :
  1 <= r ->
  Forall (fun m => pm_media_index m < r) (media_list st) ->
  exists front rest,
    media_list (scan_cands ids thr (Some r) cs st) = (front ++ rest)%list
    /\ Forall (fun m => pm_media_index m < r) front
    /\ (length rest <= 1)%nat.
Proof.
  intros Hr. revert st.
  induction cs as [|c cs IH]; intros st Hlow; simpl.
  - exists (media_list st), []. rewrite app_nil_r. split; [done |]. split; [done | simpl; lia].
  - unfold scan_candidate.
    destruct (is_duplicate ids c);
      [ destruct (differs (post_id_of c) (last_post_id st));
        [ destruct (thr <=? duplicate_count st + 1) | ]
      | destruct (range_reached (Some r) (media_index st + 1)) eqn:Hrng ];
      simpl; try (apply IH; done).
    + exists (media_list st), []. rewrite app_nil_r. split; [done |]. split; [done | simpl; lia].
    + eexists (media_list st), [_]. split; [reflexivity |]. split; [done | simpl; lia].
    + apply IH. simpl. apply Forall_app. split; [done |]. repeat constructor. simpl.
      unfold range_reached in Hrng.
      destruct (r =? 0) eqn:H0; simpl in Hrng; [apply Z.eqb_eq in H0; lia |].
      apply Z.leb_gt in Hrng. lia.
Qed.

(** Strictly increasing integers between two bounds are few. *)
Lemma increasing_between (lo hi : Z) (l : list Z) :
  StronglySorted Z.lt l -> Forall (fun x => lo <= x < hi) l ->
  Z.of_nat (length l) <= Z.max 0 (hi - lo).
Proof.
  revert lo; induction l as [|x l IH]; intros lo Hs Hb; simpl length; [lia |].
  apply StronglySorted_cons in Hs as [Hx Hs]. apply Forall_cons in Hb as [Hbx Hb].
  assert (Forall (fun y => x + 1 <= y < hi) l) as Hb'.
  { rewrite Forall_forall in *. intros y Hy. specialize (Hx y Hy). specialize (Hb y Hy). lia. }
  specialize (IH (x + 1) Hs Hb'). lia.
Qed.

(** X3.  With a [max_range] cap [r >= 1] a post scan emits at most [r]
    items, and every emitted item but the last one has a position
    below [r]. *)
Theorem cap_bounds_emitted
    (ids : gset string) (max_duplicates r : Z) (lines : list string) (Hr : 1 <= r) :
  let items := media_list (scan_lines ids max_duplicates (Some r) lines init_state) in
  Z.of_nat (length items) <= r
  /\ (forall i m, items !! i = Some m -> (S i < length items)%nat -> pm_media_index m < r).
Proof.
  intros items. subst items. rewrite scan_lines_cands.
  set (cs := candidates lines).
  destruct (scan_below_cap ids max_duplicates r cs init_state Hr ltac:(constructor))
    as (front & rest & Heq & Hfront & Hrest).
  pose proof (scan_sorted ids max_duplicates (Some r) cs init_state
                ltac:(constructor) ltac:(constructor)) as Hsorted.
  assert (forall m, m ∈ media_list (scan_cands ids max_duplicates (Some r) cs init_state) ->
                    1 <= pm_media_index m) as Hpos.
  { intros m [Hm | (k & Hk & _)]%scan_items; [by apply elem_of_nil in Hm |].
    change (media_index init_state) with 0 in Hk. lia. }
  rewrite Heq in *. split.
  - rewrite map_app in Hsorted. apply StronglySorted_app_1_l in Hsorted.
    assert (Forall (fun x => 1 <= x < r) (map pm_media_index front)) as Hb.
    { apply Forall_fmap. rewrite Forall_forall in *. intros m Hm. simpl. split.
      - apply Hpos, elem_of_app. by left.
      - by apply Hfront. }
    pose proof (increasing_between 1 r _ Hsorted Hb) as Hlen.
    rewrite length_map in Hlen. rewrite length_app. lia.
  - intros i m Hi Hlt. rewrite length_app in Hlt.
    rewrite Forall_forall in Hfront. apply Hfront.
    rewrite lookup_app_l in Hi by lia. by apply list_elem_of_lookup_2 in Hi.
Qed.

Lemma cap_bounds_emitted_witness :
  1 <= 2
  /\ Z.of_nat (length (media_list (scan_lines ∅ 3 (Some 2)
                                     ["1_1.jpg"; "2_1.jpg"; "3_1.jpg"] init_state))) <= 2.
Proof.
  split; [lia |].
  apply (cap_bounds_emitted ∅ 3 2 ["1_1.jpg"; "2_1.jpg"; "3_1.jpg"]). lia.
Defined.

(** *** Group positions *)

Lemma groups_next (st : scan_state) (pid : string) :
  groups_ok st ->
  let pidx := if differs pid (last_post_id st) then post_index st + 1 else post_index st in
  1 <= pidx /\ post_index st <= pidx <= media_index st + 1
  /\ (forall m, m ∈ media_list st -> pm_post_index m = pidx -> pm_post_id m = pid).
Proof.
  intros (Hidx & Hone & Hall & _ & Hlast & _) pidx. subst pidx.
  destruct (differs pid (last_post_id st)) eqn:Hd.
  - split; [lia |]. split; [lia |]. intros m Hm Hp.
    rewrite Forall_forall in Hall. specialize (Hall m Hm). lia.
  - assert (last_post_id st = Some pid) as Hl.
    { destruct (last_post_id st) as [p|]; [| done]. simpl in Hd.
      apply negb_false_iff, String.eqb_eq in Hd. by subst. }
    split; [apply Hone; rewrite Hl; by eexists |]. split; [lia |].
    intros m Hm Hp. specialize (Hlast m Hm Hp). congruence.
Qed.

Lemma groups_skip (st : scan_state) (pid : string) (d n : Z) (e : bool) :
  groups_ok st ->
  groups_ok
    {| media_list := media_list st; duplicate_count := d; stopped_early := e;
       new_content_count := n; last_post_id := Some pid;
       post_index := if differs pid (last_post_id st)
                     then post_index st + 1 else post_index st;
       media_index := media_index st + 1 |}.
Proof.
  intros Hok. destruct (groups_next st pid Hok) as (H1 & H2 & H3).
  destruct Hok as (Hidx & _ & Hall & Hsorted & _ & Hsame).
  unfold groups_ok. simpl. split; [lia |]. split; [done |]. split.
  { eapply Forall_impl; [exact Hall |]. simpl. intros; lia. }
  split; [done |]. split; [| done].
  intros m Hm Hp. f_equal. symmetry. by apply H3.
Qed.

Lemma groups_emit (st : scan_state) (item : post_media) (e : bool) :
  groups_ok st ->
  pm_post_index item
  = (if differs (pm_post_id item) (last_post_id st)
     then post_index st + 1 else post_index st) ->
  pm_media_index item = media_index st + 1 ->
  groups_ok
    {| media_list := media_list st ++ [item]; duplicate_count := duplicate_count st;
       stopped_early := e; new_content_count := new_content_count st + 1;
       last_post_id := Some (pm_post_id item);
       post_index := pm_post_index item;
       media_index := media_index st + 1 |}.
Proof.
  intros Hok Hpi Hmi. destruct (groups_next st (pm_post_id item) Hok) as (H1 & H2 & H3).
  rewrite <- Hpi in H1, H2, H3.
  destruct Hok as (Hidx & _ & Hall & Hsorted & _ & Hsame).
  unfold groups_ok. simpl. split; [lia |]. split; [done |].
  rewrite Forall_forall in Hall. split.
  { apply Forall_app. split.
    - apply Forall_forall. intros m Hm. specialize (Hall m Hm). lia.
    - repeat constructor; lia. }
  split.
  { apply StronglySorted_app_2; [| done | repeat constructor].
    intros m1 m2 Hm1 ->%list_elem_of_singleton. specialize (Hall m1 Hm1). lia. }
  split.
  - intros m [Hm | ->%list_elem_of_singleton]%elem_of_app Hp; [| done].
    f_equal. symmetry. by apply H3.
  - intros m1 m2 [Hm1 | ->%list_elem_of_singleton]%elem_of_app
                 [Hm2 | ->%list_elem_of_singleton]%elem_of_app Hp.
    + by apply Hsame.
    + by apply H3.
    + symmetry. by apply H3.
    + done.
Qed.

Lemma step_groups (ids : gset string) thr rng c st :
  groups_ok st -> groups_ok (scan_candidate ids thr rng c st).1.
Proof.
  intros Hok. unfold scan_candidate.
  destruct (is_duplicate ids c);
    [ destruct (differs (post_id_of c) (last_post_id st)) eqn:Hnew;
      [ destruct (thr <=? duplicate_count st + 1) | ]
    | destruct (range_reached rng (media_index st + 1)) ];
    simpl.
  1-3: match goal with
       | |- groups_ok {| duplicate_count := ?d; stopped_early := ?e;
                         new_content_count := ?n |} =>
           pose proof (groups_skip st (post_id_of c) d n e Hok) as Hskip;
           rewrite Hnew in Hskip; exact Hskip
       end.
  all: by apply (groups_emit st
                   {| pm_id := without_ext c; pm_post_id := post_id_of c;
                      pm_post_index := if differs (post_id_of c) (last_post_id st)
                                       then post_index st + 1 else post_index st;
                      pm_media_index := media_index st + 1; pm_filename := c;
                      pm_media_type := media_type_of c |}).
Qed.

Lemma scan_groups (ids : gset string) thr rng cs st :
  groups_ok st -> groups_ok (scan_cands ids thr rng cs st).
Proof.
  revert st; induction cs as [|c cs IH]; intros st Hok; simpl; [done |].
  pose proof (step_groups ids thr rng c st Hok) as Hstep.
  destruct (scan_candidate ids thr rng c st) as [s1 [|]]; simpl in *; [done | by apply IH].
Qed.

Lemma init_groups_ok : groups_ok init_state.
Proof.
  unfold groups_ok. simpl. split; [lia |]. split; [intros [? ?]; done |].
  split; [constructor |]. split; [constructor |].
  split; intros *; intros H; by apply elem_of_nil in H.
Qed.

(** X4.  Along the items a post scan emits the group position
    [post_index] never decreases, is at least 1 and at most the item's
    media position, two items with the same group position belong to
    the same post, and the final [post_index] is at most the final
    [media_index]. *)
Theorem group_positions_follow_groups
    (ids : gset string) (max_duplicates : Z) (max_range : option Z) (lines : list string) :
  let st := scan_lines ids max_duplicates max_range lines init_state in
  StronglySorted Z.le (map pm_post_index (media_list st))
  /\ Forall (fun m => 1 <= pm_post_index m <= pm_media_index m
                      /\ pm_post_index m <= post_index st) (media_list st)
  /\ (forall m1 m2, m1 ∈ media_list st -> m2 ∈ media_list st ->
        pm_post_index m1 = pm_post_index m2 -> pm_post_id m1 = pm_post_id m2)
  /\ 0 <= post_index st <= media_index st.
Proof.
  intros st. subst st. rewrite scan_lines_cands.
  destruct (scan_groups ids max_duplicates max_range (candidates lines) init_state
              init_groups_ok) as (Hidx & _ & Hall & Hsorted & _ & Hsame).
  split; [| split; [| split; [exact Hsame | exact Hidx]]].
  - by apply (StronglySorted_fmap pm_post_index
                (fun a b => pm_post_index a <= pm_post_index b) Z.le).
  - eapply Forall_impl; [exact Hall |]. simpl. intros; lia.
Qed.

End PostsBounds.

(** ** More on the story scan *)

Module StoriesMore.
Import PyStr Feed Stories Notions Archive ArchiveFacts.

Lemma story_scan_filter (ids : gset string) (lines : list string) st :
  map sm_filename (media_list (scan_lines ids lines st))
  = (map sm_filename (media_list st)
     ++ filter (fun c => numeric_id c = true /\ c ∉ ids) (candidates lines))%list
  /\ total_scanned (scan_lines ids lines st)
     = total_scanned st
       + Z.of_nat (length (filter (fun c => numeric_id c = true) (candidates lines))).
Proof.
  unfold candidates. revert st; induction lines as [|raw rest IH]; intros st; simpl.
  - rewrite app_nil_r. split; [done | lia].
  - rewrite !filter_cons.
    destruct (is_media_line (normalize raw)) eqn:Hm.
    + rewrite decide_True by done. rewrite !filter_cons.
      destruct (IH (scan_candidate ids (normalize raw) st)) as [Hl Ht].
      rewrite Hl, Ht. unfold scan_candidate.
      destruct (numeric_id (normalize raw)) eqn:Hnum.
      * rewrite (decide_True (P := true = true)) by done.
        case_bool_decide as Hin; simpl.
        -- rewrite decide_False by (intros [_ ?]; done). split; [done | lia].
        -- rewrite decide_True by done. rewrite map_app, <- app_assoc. simpl.
           split; [done | lia].
      * rewrite decide_False by (intros [? _]; done).
        rewrite (decide_False (P := false = true)) by done. done.
    + rewrite decide_False by congruence. apply IH.
Qed.

Lemma numeric_split (ids : gset string) (l : list string) :
  length (filter (fun c => numeric_id c = true) l)
  = (length (filter (fun c => numeric_id c = true /\ c ∉ ids) l)
     + length (filter (fun c => numeric_id c = true /\ c ∈ ids) l))%nat.
Proof.
  induction l as [|c l IH]; [done |].
  rewrite !filter_cons.
  repeat case_decide; simpl; try lia;
    exfalso; destruct (decide (c ∈ ids)); tauto.
Qed.

(** X5.  On a listing of ASCII lines a story scan handles every
    candidate: it emits, in listing order and as often as they occur,
    the candidates with a numeric identifier whose file name is not
    archived; it counts in [total_scanned] the candidates with a
    numeric identifier; and the count is the number of emitted items
    plus the number of archived ones. *)
Theorem story_scan_is_a_filter (downloaded_ids : gset string) (lines : list string)
    (Hascii : Charset.ascii_lines lines = true) :
  let st := scan_lines downloaded_ids lines init_state in
  let cs := candidates lines in
  map sm_filename (media_list st)
  = filter (fun c => numeric_id c = true /\ c ∉ downloaded_ids) cs
  /\ total_scanned st = Z.of_nat (length (filter (fun c => numeric_id c = true) cs))
  /\ total_scanned st
     = Z.of_nat (length (media_list st))
       + Z.of_nat (length (filter (fun c => numeric_id c = true /\ c ∈ downloaded_ids) cs)).
Proof.
  intros st cs. subst st cs.
  destruct (story_scan_filter downloaded_ids lines init_state) as [Hl Ht].
  simpl in Hl, Ht. split; [exact Hl |]. split; [exact Ht |].
  rewrite Ht. rewrite <- (length_map sm_filename), Hl.
  rewrite <- Nat2Z.inj_add, Z.add_0_l. f_equal. apply numeric_split.
Qed.

(** Four lines: an archived story, a new one, a line that is not a
    story file and a line that is not a candidate. *)
Lemma story_scan_is_a_filter_witness :
  let lines := ["# 111_1.jpg"; "222.mp4"; "cover_a.jpg"; "done"] in
  let st := scan_lines {["111_1.JPG"]} lines init_state in
  Charset.ascii_lines lines = true
  /\ map sm_filename (media_list st) = ["222.MP4"]
  /\ total_scanned st = 2.
Proof.
  intros lines.
  assert (Charset.ascii_lines lines = true) as Hascii by reflexivity.
  split; [exact Hascii |].
  destruct (story_scan_is_a_filter {["111_1.JPG"]} lines Hascii) as (H1 & H2 & _).
  split; [rewrite H1 | rewrite H2]; by vm_compute.
Defined.

Lemma downloaded_stories_merge account new_posts new_stories
    (archive : gmap string account_record) (x : string) :
  x ∈ downloaded_stories (merge account new_posts new_stories archive) account
  <-> x ∈ downloaded_stories archive account \/ x ∈ map sm_filename new_stories.
Proof.
  unfold downloaded_stories. rewrite record_of_merge. simpl.
  rewrite !elem_of_list_to_set, dict_fromkeys_elem, elem_of_app. done.
Qed.

(** X6.  Once the stories a scan found are merged into the archive, a
    scan of the same listing against the updated archive emits
    nothing, and counts as many stories as before. *)
Theorem story_rescan_after_merge_finds_nothing
    (account : string) (file : archive_file) (new_posts : list Posts.post_media)
    (lines : list string) :
  let found := scan_lines (downloaded_stories (load_archive file) account) lines init_state in
  let file' := (update_archive no_faults account new_posts (media_list found) file).1 in
  let again := scan_lines (downloaded_stories (load_archive file') account) lines init_state in
  media_list again = [] /\ total_scanned again = total_scanned found.
Proof.
  intros found file' again. subst found file' again.
  rewrite ArchiveClaims.update_archive_returns. simpl.
  set (old := downloaded_stories (load_archive file) account).
  set (items := media_list (scan_lines old lines init_state)).
  set (new := downloaded_stories _ account).
  assert (forall x, x ∈ new <-> x ∈ old \/ x ∈ map sm_filename items) as Hnew.
  { intros x. apply downloaded_stories_merge. }
  destruct (story_scan_filter old lines init_state) as [Hl1 Ht1].
  destruct (story_scan_filter new lines init_state) as [Hl2 Ht2].
  simpl in *. split; [| by rewrite Ht1, Ht2].
  apply (PostsMore.map_eq_nil_inv sm_filename). rewrite Hl2.
  apply PostsMore.filter_none. intros c Hc [Hnum Hout]. apply Hout, Hnew.
  destruct (decide (c ∈ old)); [by left | right].
  unfold items. rewrite Hl1. apply list_elem_of_filter. done.
Qed.

End StoriesMore.

(** ** The download step *)

Module DownloadFacts.
Import PyStr Feed Posts Range Download.

Lemma scan_range_runs (new_posts : list post_media) :
  new_posts <> [] -> Forall (fun m => 1 <= pm_media_index m) new_posts ->
  posts_download_runs (posts_range new_posts) = true.
Proof.
  destruct new_posts as [|m ms]; [done |]. intros _ Hpos. simpl.
  unfold min_media_index, max_media_index.
  destruct (RangeClaims.fold_min_spec (map pm_media_index ms) (pm_media_index m))
    as [Hmin Hle].
  destruct (RangeClaims.fold_max_spec (map pm_media_index ms) (pm_media_index m))
    as [_ Hge].
  apply Forall_cons in Hle as [Hle _]. apply Forall_cons in Hge as [Hge _].
  change (pm_media_index m :: map pm_media_index ms)
    with (map pm_media_index (m :: ms)) in Hmin.
  apply list_elem_of_fmap in Hmin as (x & Hx & Hin).
  rewrite Forall_forall in Hpos. specialize (Hpos x Hin).
  apply andb_true_iff. split; [apply Z.ltb_lt | apply Z.leb_le]; lia.
Qed.

(** X7.  A download for new stories without new posts raises
    [UnboundLocalError]: the story branch of [download_content_v2]
    reads [data_dir], which only the post branch assigns.  With new
    posts taken from a scan (positions at least 1) the call returns;
    so does a call with no new stories. *)
Theorem stories_only_download_raises
    (new_posts : list post_media) (new_stories : list Stories.story_media)
    (run : posts_run) (stories_result : listing) :
  (new_posts = [] -> new_stories <> [] ->
   download_new_content new_posts new_stories run stories_result
   = Raised_ UnboundLocalError)
  /\ (new_posts <> [] -> Forall (fun m => 1 <= pm_media_index m) new_posts ->
      download_new_content new_posts new_stories run stories_result
      = Returned (posts_try run,
                  if 0 <? Z.of_nat (length new_stories)
                  then stories_try stories_result else true))
  /\ (new_stories = [] ->
      exists posts_success,
        download_new_content new_posts new_stories run stories_result
        = Returned (posts_success, true))
  /\ (forall range n,
        download_content_v2 range n run stories_result = Raised_ UnboundLocalError
        <-> posts_download_runs range = false /\ 0 < n).
Proof.
  unfold download_new_content, download_content_v2.
  split; [| split; [| split]].
  - intros -> Hs. simpl.
    destruct new_stories; [done |]. reflexivity.
  - intros Hne Hpos.
    rewrite (scan_range_runs new_posts Hne Hpos).
    by destruct (0 <? Z.of_nat (length new_stories)).
  - intros ->. simpl. eauto.
  - intros range n. destruct (Z.ltb_spec 0 n); destruct (posts_download_runs range);
      split; try done; try (intros [? ?]; done || lia).
Qed.

End DownloadFacts.

(** ** Clearing the archive *)

Module ClearingFacts.
Import Archive ArchiveFacts Clearing.

Lemma save_archive_returns (archive : gmap string account_record) (f : archive_file) :
  save_archive no_faults archive f = (Document archive, Some tt).
Proof. reflexivity. Qed.

Lemma clear_returns (op : clear_op) (s : session) (archive : gmap string account_record) :
  apply_op op (memory s) = Some archive ->
  clear no_faults op s
  = ({| memory := archive; file := Document (saved op archive) |}, false).
Proof. intros H. unfold clear. by rewrite H. Qed.

(** X8.  In the clearing menu, clearing the post records of an account
    that is in the archive leaves, in the file and in memory, that
    account with no post record and its story records as they were,
    and every other account as it was; a post scan for the account
    then has an empty archive.  Clearing the story records does the
    same the other way round, and clearing the account removes it
    alone. *)
Theorem clear_touches_one_category (f : archive_file) (account : string)
    (r : account_record) (Hin : load_archive f !! account = Some r) :
  let after op := (clear no_faults op (open_menu f)).1 in
  (let s := after (ClearPosts account) in
      load_archive (file s) = memory s
      /\ memory s !! account = Some {| posts := []; stories := stories r |}
      /\ downloaded_posts (memory s) account = ∅
      /\ downloaded_stories (memory s) account = downloaded_stories (load_archive f) account
      /\ forall other, other <> account -> memory s !! other = load_archive f !! other)
  /\ (let s := after (ClearStories account) in
      load_archive (file s) = memory s
      /\ memory s !! account = Some {| posts := posts r; stories := [] |}
      /\ downloaded_stories (memory s) account = ∅
      /\ downloaded_posts (memory s) account = downloaded_posts (load_archive f) account
      /\ forall other, other <> account -> memory s !! other = load_archive f !! other)
  /\ (let s := after (ClearAccount account) in
      load_archive (file s) = memory s
      /\ memory s !! account = None
      /\ forall other, other <> account -> memory s !! other = load_archive f !! other).
Proof.
  intros after. subst after. cbv beta zeta.
  assert (forall op archive,
             apply_op op (load_archive f) = Some archive ->
             clear no_faults op (open_menu f)
             = ({| memory := archive; file := Document (saved op archive) |}, false))
    as Hclear by (intros; by apply clear_returns).
  rewrite (Hclear (ClearPosts account) _ ltac:(simpl; rewrite Hin; reflexivity)).
  rewrite (Hclear (ClearStories account) _ ltac:(simpl; rewrite Hin; reflexivity)).
  rewrite (Hclear (ClearAccount account) _ ltac:(simpl; rewrite Hin; reflexivity)).
  simpl. unfold downloaded_posts, downloaded_stories, record_of.
  rewrite !lookup_insert_eq, lookup_delete_eq, Hin. simpl.
  split; [| split].
  - split; [done |]. split; [done |]. split; [done |]. split; [done |].
    intros other Hne. by rewrite lookup_insert_ne.
  - split; [done |]. split; [done |]. split; [done |]. split; [done |].
    intros other Hne. by rewrite lookup_insert_ne.
  - split; [done |]. split; [done |].
    intros other Hne. by rewrite lookup_delete_ne.
Qed.

Lemma clear_touches_one_category_witness :
  let f := Document {[ "acct" := {| posts := ["1_1.JPG"]; stories := ["7.JPG"] |} ]} in
  load_archive f !! "acct" = Some {| posts := ["1_1.JPG"]; stories := ["7.JPG"] |}
  /\ memory (clear no_faults (ClearPosts "acct") (open_menu f)).1 !! "acct"
     = Some {| posts := []; stories := ["7.JPG"] |}.
Proof.
  intros f.
  assert (load_archive f !! "acct"
          = Some {| posts := ["1_1.JPG"]; stories := ["7.JPG"] |}) as Hin
    by apply lookup_singleton_eq.
  split; [exact Hin |].
  apply (clear_touches_one_category f "acct" _ Hin).
Defined.

(** X9.  The clearing menu keeps the dictionary it loaded when it was
    opened.  "Clear all" writes an empty archive but leaves that
    dictionary as it was, so a later clearing of one account in the
    same menu writes the file that this clearing alone would have
    written: the records that "clear all" removed are back. *)
Theorem clear_all_undone_by_later_clear (f : archive_file) (op : clear_op)
    (archive : gmap string account_record)
    (Hop : op <> ClearAll) (Happ : apply_op op (load_archive f) = Some archive) :
  let cleared := (clear no_faults ClearAll (open_menu f)).1 in
  load_archive (file cleared) = ∅
  /\ memory cleared = load_archive f
  /\ file (clear no_faults op cleared).1 = file (clear no_faults op (open_menu f)).1
  /\ load_archive (file (clear no_faults op cleared).1) = archive.
Proof.
  intros cleared. subst cleared.
  rewrite (clear_returns ClearAll (open_menu f) (load_archive f)) by reflexivity.
  simpl. split; [done |]. split; [done |].
  rewrite (clear_returns op (open_menu f) archive) by exact Happ.
  rewrite (clear_returns op _ archive) by exact Happ.
  simpl. split; [done |]. by destruct op.
Qed.

Lemma clear_all_undone_by_later_clear_witness :
  let old : gmap string account_record :=
    {[ "acct" := {| posts := ["1_1.JPG"]; stories := ["7.JPG"] |} ]} in
  let cleared := (clear no_faults ClearAll (open_menu (Document old))).1 in
  ClearStories "acct" <> ClearAll
  /\ load_archive (file cleared) = ∅
  /\ load_archive (file (clear no_faults (ClearStories "acct") cleared).1)
     = {[ "acct" := {| posts := ["1_1.JPG"]; stories := [] |} ]}.
Proof.
  intros old cleared.
  assert (ClearStories "acct" <> ClearAll) as Hop by discriminate.
  assert (apply_op (ClearStories "acct") (load_archive (Document old))
          = Some {[ "acct" := {| posts := ["1_1.JPG"]; stories := [] |} ]}) as Happ.
  { simpl. unfold old. rewrite lookup_singleton_eq. simpl.
    by rewrite insert_singleton_eq. }
  split; [exact Hop |].
  destruct (clear_all_undone_by_later_clear (Document old) (ClearStories "acct") _ Hop Happ)
    as (H1 & _ & _ & H4).
  split; [exact H1 | exact H4].
Defined.

End ClearingFacts.

(** ** Settings *)

Module ConfigFacts.
Import PyStr Feed Posts Notions Config.

(** X10.  A setting that [set_config] saved is the one [get_config]
    returns, whatever default the caller gives, and the other settings
    read as before.  A value in [settings.json] takes precedence over
    [DEFAULT_CONFIG], which takes precedence over the caller's
    default.  When the save fails while the file is written, every
    setting reads as its default afterwards: the saved settings are
    lost. *)
Theorem settings_round_trip (key : string) (value : config_value) (f : settings_file) :
  let saved := (set_config WriteReturns key value f).1 in
  let broken := (set_config WriteRaisesInDump key value f).1 in
  (set_config WriteReturns key value f).2 = true
  /\ (forall default, get_config key default saved = Some value)
  /\ (forall other default, other <> key ->
        get_config other default saved = get_config other default f)
  /\ (forall k default v, load_settings f !! k = Some v -> get_config k default f = Some v)
  /\ (forall k default v, load_settings f !! k = None -> DEFAULT_CONFIG !! k = Some v ->
        get_config k default f = Some v)
  /\ (forall k default, load_settings f !! k = None -> DEFAULT_CONFIG !! k = None ->
        get_config k default f = default)
  /\ (set_config WriteRaisesInDump key value f).2 = false
  /\ (forall k default,
        get_config k default broken
        = match DEFAULT_CONFIG !! k with Some v => Some v | None => default end).
Proof.
  intros saved broken. subst saved broken. unfold set_config, get_config. simpl.
  split; [done |]. split; [intros; by rewrite lookup_insert_eq |].
  split; [intros other default Hne; by rewrite lookup_insert_ne |].
  split; [by intros k default v -> |].
  split; [by intros k default v -> -> |].
  split; [by intros k default -> -> |].
  split; [done |]. intros k default. by rewrite lookup_empty.
Qed.

(** X11.  For a [settings.json] that is absent, that [json.load]
    rejects, or that holds a dictionary of numbers and texts (what
    [save_settings] writes): [get_all_config] holds every key of
    [DEFAULT_CONFIG], so the lookups of [reload_config] do not raise
    [KeyError]; a key of the file overrides the default, a key absent
    from it has its default; and after [reset_to_defaults] has saved,
    the configuration is [DEFAULT_CONFIG]. *)
Theorem configuration_is_total (f : settings_file) :
  (forall key, is_Some (DEFAULT_CONFIG !! key) -> is_Some (get_all_config f !! key))
  /\ is_Some (reload_max_duplicates f)
  /\ (forall key v, load_settings f !! key = Some v -> get_all_config f !! key = Some v)
  /\ (forall key, load_settings f !! key = None ->
        get_all_config f !! key = DEFAULT_CONFIG !! key)
  /\ get_all_config (reset_to_defaults WriteReturns f).1 = DEFAULT_CONFIG
  /\ reload_max_duplicates (reset_to_defaults WriteReturns f).1 = Some (VInt 3).
Proof.
  unfold reload_max_duplicates, get_all_config.
  assert (forall key, is_Some (DEFAULT_CONFIG !! key) ->
                      is_Some ((load_settings f ∪ DEFAULT_CONFIG) !! key)) as Htotal.
  { intros key [v Hv]. destruct (load_settings f !! key) as [w|] eqn:Hw.
    - exists w. by apply lookup_union_Some_l.
    - exists v. rewrite lookup_union_r; done. }
  split; [exact Htotal |]. split; [apply Htotal; by eexists |].
  split; [intros key v Hv; by apply lookup_union_Some_l |].
  split; [intros key Hv; by apply lookup_union_r |].
  simpl. rewrite (map_union_idemp DEFAULT_CONFIG). split; [done |]. reflexivity.
Qed.

(** *** The threshold as the settings hold it *)

Lemma threshold_unused (ids : gset string) (n m : Z) rng line st :
  is_duplicate ids line && differs (post_id_of line) (last_post_id st) = false ->
  scan_candidate ids n rng line st = scan_candidate ids m rng line st.
Proof.
  unfold scan_candidate. intros H.
  destruct (is_duplicate ids line); [| done].
  destruct (differs (post_id_of line) (last_post_id st)); done.
Qed.

Lemma scan_cfg_number (ids : gset string) (n : Z) rng lines st :
  scan_lines_cfg ids (VInt n) rng lines st = Some (scan_lines ids n rng lines st).
Proof.
  revert st; induction lines as [|raw rest IH]; intros st; simpl; [done |].
  destruct (is_media_line (normalize raw)); [| apply IH].
  unfold scan_candidate_cfg.
  destruct (is_duplicate ids (normalize raw)
            && differs (post_id_of (normalize raw)) (last_post_id st)) eqn:Hc.
  - destruct (scan_candidate ids n rng (normalize raw) st) as [st1 [|]]; [done | apply IH].
  - rewrite (threshold_unused ids 0 n) by done.
    destruct (scan_candidate ids n rng (normalize raw) st) as [st1 [|]]; [done | apply IH].
Qed.

Lemma scan_cfg_text (ids : gset string) (s : string) rng lines st :
  range_set rng = false ->
  (forall p, last_post_id st = Some p -> p ∉ ids) ->
  scan_lines_cfg ids (VStr s) rng lines st = None
  <-> exists c, c ∈ candidates lines /\ is_duplicate ids c = true.
Proof.
  intros Hrng. unfold candidates.
  revert st; induction lines as [|raw rest IH]; intros st Hlast; simpl.
  - split; [done |]. intros (c & Hc & _). by apply elem_of_nil in Hc.
  - rewrite filter_cons.
    destruct (is_media_line (normalize raw)) eqn:Hm.
    + rewrite decide_True by done. unfold scan_candidate_cfg.
      destruct (is_duplicate ids (normalize raw)) eqn:Hdup; simpl.
      * assert (differs (post_id_of (normalize raw)) (last_post_id st) = true) as ->.
        { destruct (last_post_id st) as [p|] eqn:Hl; [| done]. simpl.
          apply negb_true_iff, String.eqb_neq. intros <-.
          apply (Hlast _ eq_refl). unfold is_duplicate in Hdup.
          by apply bool_decide_eq_true in Hdup. }
        split; [intros _ | done]. exists (normalize raw). split; [left | done].
      * pose proof (PostsFacts.step_stop ids 0 rng (normalize raw) st) as Hs.
        pose proof (PostsFacts.step_last_post_id ids 0 rng (normalize raw) st) as Hl.
        rewrite Hdup, PostsMore.range_unset_not_reached in Hs by done. simpl in Hs.
        destruct (scan_candidate ids 0 rng (normalize raw) st) as [st1 b1].
        simpl in *. subst b1.
        rewrite IH.
        -- split; intros (c & Hc & Hd); exists c; [split; [by right | done] |].
           split; [| done]. apply elem_of_cons in Hc as [-> | Hc]; [congruence | done].
        -- intros p Hp. rewrite Hl in Hp. injection Hp as <-.
           unfold is_duplicate in Hdup. by apply bool_decide_eq_false in Hdup.
    + rewrite decide_False by congruence. by apply IH.
Qed.

(** X12.  When entry 8 of the settings menu accepts what was typed and
    the save returns, the threshold that [reload_config] reads is the
    typed text, not a number.  With a text as threshold and no
    [max_range] cap, the post scan raises in its loop exactly when
    the listing holds a candidate of an archived post, and
    [run_gallery_dl_scan_posts] then returns [([], False, False)],
    whatever new items came before and whatever the return code.
    With a number the scan is the one of the threshold. *)
Theorem text_threshold_fails_on_duplicate
    (typed : string) (f : settings_file)
    (downloaded_ids : gset string) (max_range : option Z) (stdout : string)
    (returncode : Z)
    (Hnav : is_navigation (strip typed) = false)
    (Hsome : nonempty (strip typed) = true)
    (Hcap : range_set max_range = false) :
  let threshold := reload_max_duplicates (menu_set_threshold WriteReturns typed true f) in
  let ids := downloaded_post_ids_of downloaded_ids in
  threshold = Some (VStr (strip typed))
  /\ (scan_lines_cfg ids (VStr (strip typed)) max_range (stdout_lines stdout) init_state = None
      <-> exists c, c ∈ candidates (stdout_lines stdout) /\ is_duplicate ids c = true)
  /\ ((exists c, c ∈ candidates (stdout_lines stdout) /\ is_duplicate ids c = true) ->
      run_gallery_dl_scan_posts_cfg downloaded_ids (VStr (strip typed)) max_range
        (Completed stdout returncode) = ([], false, false))
  /\ (forall n result,
        run_gallery_dl_scan_posts_cfg downloaded_ids (VInt n) max_range result
        = run_gallery_dl_scan_posts downloaded_ids n max_range result).
Proof.
  intros threshold ids. subst threshold ids.
  assert (scan_lines_cfg (downloaded_post_ids_of downloaded_ids) (VStr (strip typed))
            max_range (stdout_lines stdout) init_state = None
          <-> exists c, c ∈ candidates (stdout_lines stdout)
                        /\ is_duplicate (downloaded_post_ids_of downloaded_ids) c = true)
    as Hiff by (apply scan_cfg_text; done).
  split.
  { unfold menu_set_threshold, reload_max_duplicates, get_all_config, set_config.
    rewrite Hnav, Hsome. simpl.
    apply lookup_union_Some_l, lookup_insert_eq. }
  split; [exact Hiff |]. split.
  - intros Hdup. apply Hiff in Hdup. unfold run_gallery_dl_scan_posts_cfg. by rewrite Hdup.
  - intros n [out rc|]; [| done].
    unfold run_gallery_dl_scan_posts_cfg, run_gallery_dl_scan_posts, scan_posts.
    by rewrite scan_cfg_number.
Qed.

Lemma text_threshold_fails_on_duplicate_witness :
  is_navigation (strip "5") = false
  /\ nonempty (strip "5") = true
  /\ reload_max_duplicates (menu_set_threshold WriteReturns "5" true NoSettings)
     = Some (VStr "5")
  /\ run_gallery_dl_scan_posts_cfg {["2_1.JPG"]} (VStr "5") None
       (Completed (String newline "1_1.jpg" +:+ String newline "2_1.jpg") 0)
     = ([], false, false).
Proof.
  split; [reflexivity |]. split; [reflexivity |].
  destruct (text_threshold_fails_on_duplicate "5" NoSettings {["2_1.JPG"]} None
              (String newline "1_1.jpg" +:+ String newline "2_1.jpg") 0
              eq_refl eq_refl eq_refl) as (H1 & _ & H3 & _).
  split; [exact H1 |]. apply H3.
  exists "2_1.JPG". split; vm_compute; [| reflexivity].
  apply list_elem_of_In. right. left. reflexivity.
Defined.

End ConfigFacts.

(** ** Pacing *)

Module PacingFacts.
Import Config Pacing.

Lemma custom_interval_ordered (lo hi : option Z) (recommended : Z * Z) :
  0 <= recommended.1 <= recommended.2 ->
  exists a b, custom_interval lo hi recommended = Interval a b
              /\ 0 <= a /\ (0 < b -> a <= b).
Proof.
  intros Hrec. destruct lo as [x|], hi as [y|]; simpl; eauto with lia.
Qed.

(** X13.  In interactive mode the two sleep settings are pairs of
    numbers whatever was typed, and a pause test on them never raises:
    it either skips the pause or calls [random.randint(lo, hi)] with
    [0 <= lo <= hi], also when the minimum typed is negative or exceeds
    the maximum. *)
Theorem interactive_pauses_are_well_formed
    (builtins_is_module : bool) (sleep_request sleep_download : config_value)
    (choice : string) (req_min req_max dl_min dl_max : option Z) :
  let settings :=
    configure_sleep_settings false sleep_request sleep_download choice
      req_min req_max dl_min dl_max in
  let fine v :=
    match pause_test builtins_is_module v with
    | NoPause => True
    | PauseBetween lo hi => 0 <= lo <= hi
    | PauseRaises => False
    end in
  fine settings.1 /\ fine settings.2.
Proof.
  intros settings fine. subst settings fine. cbv beta.
  assert (forall v, (exists a b, v = Interval a b /\ 0 <= a /\ (0 < b -> a <= b)) ->
                    match pause_test builtins_is_module v with
                    | NoPause => True
                    | PauseBetween lo hi => 0 <= lo <= hi
                    | PauseRaises => False
                    end) as Hfine.
  { intros v (a & b & -> & Ha & Hab). unfold pause_test.
    destruct builtins_is_module; [| done].
    destruct (Z.ltb_spec 0 b); [| done]. lia. }
  unfold configure_sleep_settings.
  destruct (String.eqb choice "推荐" || String.eqb choice "r"); simpl.
  { split; apply Hfine; [exists 30, 90 | exists 5, 15]; (split; [done | lia]). }
  destruct (String.eqb choice "y" || String.eqb choice "yes"); simpl.
  - split; apply Hfine; apply custom_interval_ordered; simpl; lia.
  - split; apply Hfine; exists 0, 0; (split; [done | lia]).
Qed.

End PacingFacts.

(** ** The account list *)

Module AccountsFacts.
Import PyStr Accounts.

Lemma last_char_cons (c : ascii) (s : string) :
  last_char (String c s) = match last_char s with Some d => Some d | None => Some c end.
Proof. unfold last_char. simpl. apply last_cons. Qed.

Lemma rstrip_last (s : string) (c : ascii) :
  last_char (rstrip s) = Some c -> is_space_char c = false.
Proof.
  revert c; induction s as [|a s IH]; intros c; simpl; [done |].
  destruct (rstrip s) as [|b r] eqn:Hr.
  - destruct (is_space_char a) eqn:Ha; [done |].
    rewrite last_char_cons. unfold last_char. simpl. by intros [= <-].
  - rewrite last_char_cons. destruct (last_char (String b r)) as [d|] eqn:Hd.
    + intros [= <-]. by apply IH.
    + rewrite last_char_cons in Hd. by destruct (last_char r).
Qed.

Lemma map_chars_last (f : ascii -> ascii) (s : string) :
  last_char (map_chars f s) = f <$> last_char s.
Proof.
  induction s as [|a s IH]; [done |]. simpl. rewrite !last_char_cons, IH.
  by destruct (last_char s).
Qed.

Lemma lstrip_char_last (x : ascii) (s : string) (c : ascii) :
  last_char (lstrip_char x s) = Some c -> last_char s = Some c.
Proof.
  induction s as [|a s IH]; simpl; [done |].
  destruct (Ascii.eqb a x); [| done].
  intros H. rewrite last_char_cons, (IH H). done.
Qed.

Lemma chop_newline_same (s : string) :
  last_char s <> Some Feed.newline -> chop_newline s = s.
Proof.
  induction s as [|a s IH]; [done |]. rewrite last_char_cons. simpl.
  destruct s as [|b s].
  - unfold last_char. simpl. intros H.
    destruct (Ascii.eqb_spec a Feed.newline) as [->|]; [done | done].
  - intros H. f_equal. apply IH. destruct (last_char (String b s)); congruence.
Qed.

Lemma fold_case_not_newline (c : ascii) :
  is_space_char c = false -> lower_char (upper_char c) <> Feed.newline.
Proof. destruct c as [[] [] [] [] [] [] [] []]; vm_compute; congruence. Qed.

Lemma fold_case_not_upper (c : ascii) : is_upper_char (lower_char c) = false.
Proof. destruct c as [[] [] [] [] [] [] [] []]; reflexivity. Qed.

Lemma all_chars_map (P : ascii -> bool) (f : ascii -> ascii) (s : string) :
  (forall c, P (f c) = true) -> all_chars P (map_chars f s) = true.
Proof. intros H. induction s as [|a s IH]; [done |]. simpl. by rewrite H, IH. Qed.

Lemma all_chars_lstrip (P : ascii -> bool) (x : ascii) (s : string) :
  all_chars P s = true -> all_chars P (lstrip_char x s) = true.
Proof.
  induction s as [|a s IH]; simpl; [done |].
  destruct (Ascii.eqb a x); [| done]. intros [_ ?]%andb_true_iff. by apply IH.
Qed.

Lemma all_chars_and (P Q : ascii -> bool) (s : string) :
  all_chars P s = true -> all_chars Q s = true ->
  all_chars (fun c => P c && Q c) s = true.
Proof.
  induction s as [|a s IH]; simpl; [done |].
  intros [-> ?]%andb_true_iff [-> ?]%andb_true_iff. simpl. by apply IH.
Qed.

Lemma lstrip_char_head (x : ascii) (s : string) :
  startswith (String x "") (lstrip_char x s) = false.
Proof.
  induction s as [|a s IH]; simpl; [done |].
  destruct (Ascii.eqb_spec a x) as [->|Hne]; [done |]. simpl.
  destruct (Ascii.eqb_spec x a); [congruence | done].
Qed.

(** The name that [add_account] may append. *)
Lemma typed_name_shape (typed : string) :
  let name := lstrip_char at_sign (lower (upper (strip typed))) in
  valid_account_name name = true ->
  name <> ""
  /\ all_chars (fun c => account_char c && negb (is_upper_char c)) name = true.
Proof.
  intros name Hvalid. unfold valid_account_name in Hvalid.
  assert (chop_newline name = name) as Hchop.
  { apply chop_newline_same. intros Hlast. unfold name in Hlast.
    apply lstrip_char_last in Hlast. unfold lower, upper in Hlast.
    rewrite !map_chars_last in Hlast.
    destruct (last_char (strip typed)) as [c|] eqn:Hc; [| done].
    simpl in Hlast. injection Hlast as Hlast.
    apply (fold_case_not_newline c); [| exact Hlast].
    apply (rstrip_last (lstrip typed)). exact Hc. }
  rewrite Hchop in Hvalid. apply andb_true_iff in Hvalid as [Hne Hall].
  split; [by destruct name |].
  apply all_chars_and; [done |]. unfold name.
  apply all_chars_lstrip. unfold lower. apply all_chars_map.
  intros c. by rewrite fold_case_not_upper.
Qed.

Lemma list_remove_spec (x : string) (l : list string) :
  NoDup l -> NoDup (list_remove x l) /\ (forall y, y ∈ list_remove x l <-> y ∈ l /\ y <> x).
Proof.
  induction 1 as [|a l Ha Hnd IH]; simpl.
  - split; [constructor |]. intros y. rewrite elem_of_nil. tauto.
  - destruct (String.eqb_spec a x) as [->|Hne].
    + split; [done |]. intros y. rewrite elem_of_cons. split.
      * intros Hy. split; [by right | by intros ->].
      * intros [[-> | Hy] Hyx]; done.
    + destruct IH as [IH1 IH2]. split.
      * constructor; [| done]. rewrite IH2. tauto.
      * intros y. rewrite !elem_of_cons, IH2. split.
        -- intros [-> | [? ?]]; [split; [by left | done] | split; [by right | done]].
        -- intros [[-> | ?] ?]; [by left | by right].
Qed.

(** X14.  Adding an account leaves the list as it is or appends one
    name that was not in it, so a list without repetitions stays
    without repetitions; the name appended is not empty, is made of
    lower-case letters, digits, underscores and dots only, and does not
    start with [@].  Removing the account of a valid choice from a list
    without repetitions leaves exactly the other accounts; any other
    choice, or a refusal, leaves the list as it is. *)
Theorem account_list_stays_clean
    (accounts : list string) (typed : string) (confirm : bool)
    (choice : option Z) (Hnodup : NoDup accounts) :
  let added := add_account accounts typed confirm in
  let removed := remove_account accounts choice confirm in
  NoDup added
  /\ (added = accounts
      \/ exists name,
           added = (accounts ++ [name])%list
           /\ (name ∉ accounts) /\ name <> ""
           /\ all_chars (fun c => account_char c && negb (is_upper_char c)) name = true
           /\ startswith "@" name = false)
  /\ (confirm = false -> added = accounts /\ removed = accounts)
  /\ NoDup removed
  /\ (removed = accounts
      \/ exists n account,
           choice = Some n /\ 1 <= n <= Z.of_nat (length accounts)
           /\ accounts !! Z.to_nat (n - 1) = Some account
           /\ forall a, a ∈ removed <-> a ∈ accounts /\ a <> account)
  /\ (forall n, choice = Some n -> 1 <= n <= Z.of_nat (length accounts) ->
        confirm = true ->
        exists account,
          accounts !! Z.to_nat (n - 1) = Some account
          /\ (account ∉ removed)
          /\ forall a, a ∈ removed <-> a ∈ accounts /\ a <> account)
  /\ (forall n, choice = Some n -> ~ 1 <= n <= Z.of_nat (length accounts) ->
        removed = accounts)
  /\ (choice = None -> removed = accounts).
Proof.
  intros added removed.
  assert (added = accounts
          \/ exists name,
               added = (accounts ++ [name])%list
               /\ (name ∉ accounts) /\ name <> ""
               /\ all_chars (fun c => account_char c && negb (is_upper_char c)) name = true
               /\ startswith "@" name = false) as Hadd.
  { subst added. unfold add_account.
    destruct (String.eqb _ "b"); [by left |].
    destruct (String.eqb _ "m"); [by left |].
    destruct (nonempty _); simpl; [| by left].
    case_bool_decide as Hin; [by left |].
    destruct (valid_account_name _) eqn:Hvalid; simpl; [| by left].
    destruct confirm; [| by left]. right.
    destruct (typed_name_shape typed Hvalid) as [Hne Hall].
    eexists. split; [reflexivity |]. split; [done |]. split; [done |]. split; [done |].
    apply lstrip_char_head. }
  assert (removed = accounts
          \/ exists n account,
               choice = Some n /\ 1 <= n <= Z.of_nat (length accounts)
               /\ accounts !! Z.to_nat (n - 1) = Some account
               /\ removed = list_remove account accounts) as Hrem.
  { subst removed. unfold remove_account.
    destruct choice as [n|]; [| by left].
    destruct (Z.leb_spec 1 n); simpl; [| by left].
    destruct (Z.leb_spec n (Z.of_nat (length accounts))); simpl; [| by left].
    destruct (accounts !! Z.to_nat (n - 1)) as [account|] eqn:Hacc; [| by left].
    destruct confirm; [| by left]. right. exists n, account. done. }
  split.
  { destruct Hadd as [-> | (name & -> & Hnew & _)]; [done |].
    apply NoDup_app. split; [done |]. split; [| apply NoDup_singleton].
    intros x Hx ->%list_elem_of_singleton. done. }
  split; [exact Hadd |].
  split.
  { intros ->. subst added removed. unfold add_account, remove_account.
    split; by repeat case_match. }
  split.
  { destruct Hrem as [-> | (n & account & _ & _ & _ & ->)]; [done |].
    by apply list_remove_spec. }
  split.
  { destruct Hrem as [-> | (n & account & Hc & Hn & Hacc & ->)]; [by left | right].
    exists n, account. split; [done |]. split; [done |]. split; [done |].
    by apply list_remove_spec. }
  split.
  { intros n -> [Hlo Hhi] ->. subst removed. unfold remove_account.
    destruct (Z.leb_spec 1 n); [| lia].
    destruct (Z.leb_spec n (Z.of_nat (length accounts))); [| lia]. simpl.
    destruct (lookup_lt_is_Some_2 accounts (Z.to_nat (n - 1))) as [account Hacc]; [lia |].
    rewrite Hacc. exists account. split; [done |].
    destruct (list_remove_spec account accounts Hnodup) as [_ Hmem].
    split; [| exact Hmem]. rewrite Hmem. tauto. }
  split.
  { intros n -> Hout. subst removed. unfold remove_account.
    destruct (Z.leb_spec 1 n); [| done].
    destruct (Z.leb_spec n (Z.of_nat (length accounts))); [| done]. lia. }
  by intros ->.
Qed.

Lemma account_list_stays_clean_witness :
  NoDup ["natgeo"]
  /\ add_account ["natgeo"] "  @NASA " true = ["natgeo"; "nasa"]
  /\ NoDup (add_account ["natgeo"] "  @NASA " true).
Proof.
  assert (NoDup ["natgeo"]) as Hnd by apply NoDup_singleton.
  split; [exact Hnd |]. split; [reflexivity |].
  apply (account_list_stays_clean ["natgeo"] "  @NASA " true None Hnd).
Defined.

End AccountsFacts.

(** ** The files a download lists *)

Module DownloadFiles.
Import PyStr Feed Accounts AccountsFacts Download.

Lemma rstrip_fixed (s : string) :
  (forall c, last_char s = Some c -> is_space_char c = false) -> rstrip s = s.
Proof.
  induction s as [|a s IH]; [done |]. rewrite last_char_cons. intros Hlast. simpl.
  destruct s as [|b r].
  - simpl. rewrite (Hlast a); [done |]. done.
  - rewrite IH; [done |]. intros c Hc. apply Hlast. by rewrite Hc.
Qed.

Lemma rstrip_keeps_head (a : ascii) (s : string) :
  is_space_char a = false -> exists r, rstrip (String a s) = String a r.
Proof.
  intros Ha. simpl. destruct (rstrip s); rewrite ?Ha; eauto.
Qed.

Lemma strip_shape (s : string) :
  strip s = ""
  \/ exists a r, strip s = String a r /\ is_space_char a = false.
Proof.
  unfold strip.
  assert (lstrip s = "" \/ exists a r, lstrip s = String a r /\ is_space_char a = false)
    as [-> | (a & r & -> & Ha)].
  { induction s as [|a s IH]; simpl; [by left |].
    destruct (is_space_char a) eqn:Ha; [exact IH | right; eauto]. }
  - by left.
  - right. destruct (rstrip_keeps_head a r Ha) as [r' ->]. eauto.
Qed.

Lemma strip_idem (s : string) : strip (strip s) = strip s.
Proof.
  assert (rstrip (strip s) = strip s) as Hr.
  { apply rstrip_fixed. intros c. apply (rstrip_last (lstrip s)). }
  destruct (strip_shape s) as [He | (a & r & He & Ha)].
  - by rewrite He.
  - unfold strip at 1. rewrite He. simpl. rewrite Ha. rewrite <- He. exact Hr.
Qed.

(** X15.  The file names [download_content_v2] reads from the output
    of a download are the lines that are not blank, stripped: none is
    empty and none has white space around it.  Each of them is listed
    once, as a metadata file when it ends with [.json] in any letter
    case and as a media file otherwise, so the two lists together are
    a rearrangement of the names and their lengths add up. *)
Theorem downloaded_files_are_split (stdout : string) :
  let files := downloaded_files stdout in
  Forall (fun f => f <> "" /\ strip f = f) files
  /\ media_files files ++ json_files files ≡ₚ files
  /\ (length (media_files files) + length (json_files files) = length files)%nat
  /\ (forall f, f ∈ json_files files <-> f ∈ files /\ endswith ".json" (lower f) = true)
  /\ (forall f, f ∈ media_files files <-> f ∈ files /\ endswith ".json" (lower f) = false).
Proof.
  intros files.
  assert (media_files files ++ json_files files ≡ₚ files) as Hperm.
  { unfold media_files, json_files.
    rewrite <- (filter_app_complement (fun f => is_json f = false) files) at 3.
    rewrite (list_filter_iff (fun f => is_json f = true)
               (fun f => is_json f <> false) files); [done |].
    intros f. destruct (is_json f); split; congruence. }
  split.
  { subst files. unfold downloaded_files. apply Forall_fmap, Forall_forall.
    intros l [Hl _]%list_elem_of_filter. simpl. split.
    - by destruct (strip l).
    - apply strip_idem. }
  split; [exact Hperm |]. split.
  { rewrite <- length_app. by rewrite Hperm. }
  split; intros f; unfold json_files, media_files, is_json;
    rewrite list_elem_of_filter; tauto.
Qed.

End DownloadFiles.
